(** * MyMinecraftManager: the supervision core, embedded and verified

    The development follows the two server-side files of the repository:
    - [ProcessManager.js] (the Process Supervisor and its Command Gate), and
    - [server.js] in its supervisor-based form (Registry, Log Buffer,
      Lifecycle Orchestrator, Reconciliation Loop), together with the
      older inline [server.js] that it was refactored from (module
      [Legacy] below), which is the sibling the newer file is compared to.

    Conventions of the embedding.
    - A JavaScript string is a Rocq [string]; a character is a code unit
      below 256.  [trim] and [toLowerCase] follow ECMAScript on that range.
    - A JavaScript object used as a dictionary is a [gmap string _] of
      its own properties; the supervisor's [Map] of handles is a list in
      insertion order, because [find] over its values returns the first
      match.  [instances[name]] also finds what a plain object inherits
      from [Object.prototype]: [inherited] tells those names, and
      [register], [startServer] and [waitUntilStopped] answer for them as
      the code does; the other operations are modelled for names that
      are none of them.
    - Every operation is modelled from its call to the settlement of its
      promise.  What the environment answers on the way (does the path
      exist, what does [spawn] return, does the child exit within the
      grace window) is an explicit argument of the operation.
    - Effects that leave the process (file writes, socket emissions,
      signals, stdin writes) are appended to the [trace] field of the
      state, in program order.
    - A thrown [Error] is the [Throw] result; the state that accompanies
      it keeps whatever had been mutated before the throw. *)

From Stdlib Require Import ZArith Lia Ascii String.
From stdpp Require Import base decidable option list strings pretty gmap fin_maps.

Open Scope string_scope.
Open Scope list_scope.
Open Scope Z_scope.

(* ===================================================================== *)
(** * Part I: definitions                                                 *)
(* ===================================================================== *)

(** ** JavaScript strings *)

Definition codeUnit (c : ascii) : N := Ascii.N_of_ascii c.

(** ECMAScript WhiteSpace and LineTerminator code points below 256:
    TAB, LF, VT, FF, CR, SP and NBSP. *)
Definition isWhiteSpace (c : ascii) : bool :=
  let n := codeUnit c in
  ((9 <=? n) && (n <=? 13) || (n =? 32) || (n =? 160))%N.

Fixpoint trimStart (s : string) : string :=
  match s with
  | EmptyString => EmptyString
  | String c s' => if isWhiteSpace c then trimStart s' else s
  end.

Definition trimEnd (s : string) : string :=
  String.rev (trimStart (String.rev s)).

(** [String.prototype.trim] *)
Definition trim (s : string) : string := trimEnd (trimStart s).

(** Every code unit of [s] is white space. *)
Fixpoint allWhiteSpace (s : string) : bool :=
  match s with
  | EmptyString => true
  | String c s' => isWhiteSpace c && allWhiteSpace s'
  end.

(** Simple case mapping of one code unit below 256: A-Z and the
    Latin-1 capitals U+00C0..U+00DE, U+00D7 excepted, move up by 32. *)
Definition lowerUnit (c : ascii) : ascii :=
  let n := codeUnit c in
  if ((65 <=? n) && (n <=? 90) || (192 <=? n) && (n <=? 222) && negb (n =? 215))%N
  then Ascii.ascii_of_N (n + 32) else c.

(** [String.prototype.toLowerCase] *)
Fixpoint toLowerCase (s : string) : string :=
  match s with
  | EmptyString => EmptyString
  | String c s' => String (lowerUnit c) (toLowerCase s')
  end.

(** [s.split(sep)] for a one-character separator: never the empty list. *)
Fixpoint splitOn (sep : ascii) (cur : string) (s : string) : list string :=
  match s with
  | EmptyString => [cur]
  | String c s' =>
      if Ascii.eqb c sep then cur :: splitOn sep EmptyString s'
      else splitOn sep (cur +:+ String c EmptyString) s'
  end.

Definition LF : ascii := Ascii.ascii_of_nat 10.
Definition CR : ascii := Ascii.ascii_of_nat 13.
Definition SP : ascii := Ascii.ascii_of_nat 32.
Definition DQUOTE : string := String (Ascii.ascii_of_nat 34) EmptyString.

(** [text.split(/\r?\n/)]: every LF ends a piece, and takes a CR that
    stands immediately before it into the separator. *)
Fixpoint splitLines (cur : string) (s : string) : list string :=
  match s with
  | EmptyString => [cur]
  | String c s' =>
      if Ascii.eqb c LF then cur :: splitLines EmptyString s'
      else
        match s' with
        | String d s'' =>
            if Ascii.eqb c CR && Ascii.eqb d LF
            then cur :: splitLines EmptyString s''
            else splitLines (cur +:+ String c EmptyString) s'
        | EmptyString => [cur +:+ String c EmptyString]
        end
  end.

(** [arr.join(sep)] *)
Fixpoint join (sep : string) (l : list string) : string :=
  match l with
  | [] => EmptyString
  | [x] => x
  | x :: rest => x +:+ sep +:+ join sep rest
  end.

(** ** Command Gate (ProcessManager.js, [isCommandWithArgsDisabled]) *)

(** One entry of [disabled_commands.json]; [args] may be missing. *)
Record DisabledRule := {
  rule_command : string;
  rule_args : option (list string)
}.

(** The [for] loop comparing [entry.args[i].toLowerCase()] with
    [argsLower[i]], from index [i] on.  An index past the end of
    [argsLower] reads [undefined], which differs from every string. *)
Fixpoint argsLoop (ruleArgs : list string) (i : nat) (argsLower : list string) : bool :=
  match ruleArgs with
  | [] => true
  | r :: rest =>
      match argsLower !! i with
      | Some a =>
          if bool_decide (toLowerCase r = a) then argsLoop rest (S i) argsLower
          else false
      | None => false
      end
  end.

(** The callback given to [Array.prototype.some]. *)
Definition ruleMatches (cmdLower : string) (argsLower : list string)
    (entry : DisabledRule) : bool :=
  if bool_decide (toLowerCase (rule_command entry) = cmdLower) then
    match rule_args entry with
    | None => true
    | Some [] => true
    | Some ruleArgs =>
        if (length argsLower <? length ruleArgs)%nat then false
        else argsLoop ruleArgs 0 argsLower
    end
  else false.

Definition isCommandWithArgsDisabled (disabledCommands : list DisabledRule)
    (command : string) (args : list string) : bool :=
  let cmdLower := toLowerCase command in
  let argsLower := toLowerCase <$> args in
  existsb (ruleMatches cmdLower argsLower) disabledCommands.

(** The gate as the specification words it. *)
Definition equalIgnoringCase (a b : string) : Prop :=
  toLowerCase a = toLowerCase b.

Definition ruleBlocks_spec (r : DisabledRule) (command : string)
    (args : list string) : Prop :=
  equalIgnoringCase (rule_command r) command ∧
  match rule_args r with
  | None => True
  | Some prefix =>
      prefix = [] ∨
      ∀ (i : nat) (x : string), prefix !! i = Some x →
        ∃ a, args !! i = Some a ∧ equalIgnoringCase x a
  end.

Definition isDisabled_spec (rules : list DisabledRule) (command : string)
    (args : list string) : Prop :=
  ∃ r, r ∈ rules ∧ ruleBlocks_spec r command args.

(** ** Shared data: instances, results, effects *)

(** One value of the [instances] dictionary, as [POST /instances] builds
    it.  [inst_pid = None] is the JavaScript [null]. *)
Record Instance := {
  inst_name : string;
  inst_workingDir : string;
  inst_command : string;
  inst_status : string;
  inst_pid : option Z
}.

#[export] Instance Instance_eq_dec : EqDecision Instance.
Proof. solve_decision. Defined.

Definition withRuntime (inst : Instance) (st : string) (p : option Z) : Instance :=
  {| inst_name := inst_name inst;
     inst_workingDir := inst_workingDir inst;
     inst_command := inst_command inst;
     inst_status := st;
     inst_pid := p |}.

(** What [child_process.spawn] does: it returns a [ChildProcess] whose
    [pid] is a number, or undefined when the launch failed, or throws. *)
Inductive SpawnOutcome :=
| Spawned (childPid : option Z)
| SpawnThrew (message : string).

(** Effects visible outside the Node process. *)
Inductive Event :=
| EvWriteInstances (snapshot : gmap string Instance)
| EvEmit (room : option string) (event : string)
| EvEmitRegistry (event : string) (payload : gmap string Instance)
| EvSpawn (cmd : string) (args : list string) (cwd : string) (outcome : SpawnOutcome)
| EvStdinWrite (target : Z) (text : string)
| EvSignal (target : Z) (signal : string)
| EvExitObserved (child : Z)
| EvAppendFile (cmd : string) (line : string).

Inductive Result (A : Type) :=
| Ok (value : A)
| Throw (message : string).
Arguments Ok {A} value.
Arguments Throw {A} message.

(** ** JavaScript values met in conditions *)

Inductive JsVal :=
| JsNull
| JsNum (n : Z)
| JsBool (b : bool).

Definition truthy (v : JsVal) : bool :=
  match v with
  | JsNull => false
  | JsNum n => negb (n =? 0)
  | JsBool b => b
  end.

(** [a && b] with [b] free of effects. *)
Definition jsAnd (a b : JsVal) : JsVal := if truthy a then b else a.

(** [a !== b]: values of different types are never strictly equal. *)
Definition strictNe (a b : JsVal) : bool :=
  match a, b with
  | JsNull, JsNull => false
  | JsNum x, JsNum y => negb (x =? y)
  | JsBool x, JsBool y => xorb x y
  | _, _ => true
  end.

Definition pidVal (p : option Z) : JsVal :=
  match p with
  | None => JsNull
  | Some n => JsNum n
  end.

Definition pidTruthy (p : option Z) : bool := truthy (pidVal p).

(** ** Process Supervisor (ProcessManager.js) *)

(** A value of the [processes] Map.  [pi_proc] tells whether the record
    carries a [proc] field (the [ChildProcess]); the [cpu] and [memory]
    fields play no part in what follows and are left out. *)
Record ProcInfo := {
  pi_id : nat;
  pi_command : string;
  pi_args : list string;
  pi_proc : bool;
  pi_pid : option Z;
  pi_errors : list string
}.

Record ProcessManager := {
  pm_processes : list ProcInfo;
  pm_nextId : nat;
  pm_disabledCommands : list DisabledRule
}.

(** [this.processes.get(id)] *)
Definition pmGet (id : nat) (handles : list ProcInfo) : option ProcInfo :=
  List.find (fun p => (pi_id p =? id)%nat) handles.

(** [this.processes.set(id, info)]: an existing key keeps its place. *)
Fixpoint pmSet (info : ProcInfo) (handles : list ProcInfo) : list ProcInfo :=
  match handles with
  | [] => [info]
  | p :: rest =>
      if (pi_id p =? pi_id info)%nat then info :: rest
      else p :: pmSet info rest
  end.

(** [this.processes.delete(id)] *)
Definition pmDelete (id : nat) (handles : list ProcInfo) : list ProcInfo :=
  List.filter (fun p => negb (pi_id p =? id)%nat) handles.

Definition pushError (msg : string) (p : ProcInfo) : ProcInfo :=
  {| pi_id := pi_id p; pi_command := pi_command p; pi_args := pi_args p;
     pi_proc := pi_proc p; pi_pid := pi_pid p;
     pi_errors := pi_errors p ++ [msg] |}.

(** [appendError(command, errorMsg, procInfo)].  [procInfo] is the very
    object stored in the Map, so the push is an update of the entry with
    that id; [target = None] is an undefined [procInfo].  The line goes
    to the per-command log file (the timestamp is left out). *)
Definition appendError (cmd msg : string) (target : option nat)
    (pm : ProcessManager) : ProcessManager * list Event :=
  let handles :=
    match target with
    | Some id =>
        (fun p => if (pi_id p =? id)%nat then pushError msg p else p)
          <$> pm_processes pm
    | None => pm_processes pm
    end in
  ({| pm_processes := handles; pm_nextId := pm_nextId pm;
      pm_disabledCommands := pm_disabledCommands pm |},
   [EvAppendFile cmd msg]).

Definition disabledMessage (cmd : string) (args : list string) : string :=
  "Command " +:+ DQUOTE +:+ cmd +:+ DQUOTE +:+ " with args [" +:+
  join ", " args +:+ "] is disabled and cannot be run.".

(** [spawnProcess(command, args, options)]; [os] is what [spawn] would
    do with the request.  Returns the handle id. *)
Definition spawnProcess (cmd : string) (args : list string) (cwd : string)
    (os : SpawnOutcome) (pm : ProcessManager) : nat * ProcessManager * list Event :=
  let id := pm_nextId pm in
  let record (proc : bool) (p : option Z) (errs : list string) :=
    {| pm_processes :=
         pmSet {| pi_id := id; pi_command := cmd; pi_args := args;
                  pi_proc := proc; pi_pid := p; pi_errors := errs |}
               (pm_processes pm);
       pm_nextId := S id;
       pm_disabledCommands := pm_disabledCommands pm |} in
  if isCommandWithArgsDisabled (pm_disabledCommands pm) cmd args then
    let errorMsg := disabledMessage cmd args in
    let '(pm', evs) := appendError cmd errorMsg (Some id) (record false None [errorMsg]) in
    (id, pm', evs)
  else
    match os with
    | Spawned p =>
        (id, record true p [], [EvSpawn cmd args cwd os])
    | SpawnThrew message =>
        let '(pm', evs) := appendError cmd message (Some id) (record false None [message]) in
        (id, pm', EvSpawn cmd args cwd os :: evs)
    end.

(** The pid when it is truthy (a number other than 0). *)
Definition truthyPid (p : option Z) : option Z :=
  match p with
  | Some n => if pidTruthy p then Some n else None
  | None => None
  end.

(** [killProcess(processId)]; [killError] is the message of the
    exception [process.kill] raises, if it raises one. *)
Definition killProcess (processId : nat) (killError : option string)
    (pm : ProcessManager) : ProcessManager * list Event :=
  match pmGet processId (pm_processes pm) with
  | Some info =>
      match truthyPid (pi_pid info) with
      | Some p =>
          match killError with
          | None => (pm, [EvSignal (- p) "SIGTERM"])
          | Some message =>
              let '(pm', evs) :=
                appendError (pi_command info)
                  ("Error killing process " +:+ pretty p +:+ ": " +:+ message)
                  (Some processId) pm in
              (pm', EvSignal (- p) "SIGTERM" :: evs)
          end
      | None =>
          appendError (pi_command info)
            "Cannot kill process: process was never started or already exited."
            (Some processId) pm
      end
  | None => (pm, [])
  end.

(** [checkErrors(processId)] *)
Definition checkErrors (processId : nat) (pm : ProcessManager) : list string :=
  match pmGet processId (pm_processes pm) with
  | Some info => pi_errors info
  | None => ["Process ID " +:+ pretty processId +:+ " not found."]
  end.

(** ** server.js: state *)

(** The module-level variables of server.js, the [instances.json] file
    ([disk]) and the effects performed so far ([trace]). *)
Record State := {
  instances : gmap string Instance;
  instanceLogs : gmap string (list string);
  pm : ProcessManager;
  disk : gmap string Instance;
  trace : list Event
}.

(** [instances] is a plain object: [instances[name]] also finds what
    the object inherits.  These are the property names of
    [Object.prototype]; each of them holds a function (an object for
    "__proto__"), which is truthy and has no [command], [status] or
    [pid] of its own. *)
Definition objectPrototypeNames : list string :=
  ["constructor"; "__defineGetter__"; "__defineSetter__"; "hasOwnProperty";
   "__lookupGetter__"; "__lookupSetter__"; "isPrototypeOf";
   "propertyIsEnumerable"; "toString"; "valueOf"; "__proto__";
   "toLocaleString"].

Definition inherited (name : string) : bool :=
  bool_decide (name ∈ objectPrototypeNames).

(** The message of the ReferenceError that evaluating [processes]
    throws: server.js declares [SOCKETS], [instances], [instanceLogs],
    [logs] and [pm], and no [processes]. *)
Definition processesNotDefined : string := "processes is not defined".

Definition setInstances (m : gmap string Instance) (st : State) : State :=
  {| instances := m; instanceLogs := instanceLogs st; pm := pm st;
     disk := disk st; trace := trace st |}.

Definition setInstanceLogs (m : gmap string (list string)) (st : State) : State :=
  {| instances := instances st; instanceLogs := m; pm := pm st;
     disk := disk st; trace := trace st |}.

Definition setPm (m : ProcessManager) (st : State) : State :=
  {| instances := instances st; instanceLogs := instanceLogs st; pm := m;
     disk := disk st; trace := trace st |}.

Definition perform (evs : list Event) (st : State) : State :=
  {| instances := instances st; instanceLogs := instanceLogs st; pm := pm st;
     disk := disk st; trace := trace st ++ evs |}.

(** [saveInstances()]: the whole dictionary replaces the file. *)
Definition saveInstances (st : State) : State :=
  {| instances := instances st; instanceLogs := instanceLogs st; pm := pm st;
     disk := instances st;
     trace := trace st ++ [EvWriteInstances (instances st)] |}.

(** ** server.js: Log Buffer *)

Definition logCapacity : nat := 400.

(** The [for (let line of lines)] loop of [appendInstanceLog]. *)
Fixpoint pushLines (buf : list string) (lines : list string) : list string :=
  match lines with
  | [] => buf
  | line :: rest =>
      if bool_decide (trim line = EmptyString) then pushLines buf rest
      else pushLines (buf ++ [line]) rest
  end.

(** [while (buf.length > cap) buf.shift()] *)
Fixpoint shiftWhileOver (cap : nat) (buf : list string) : list string :=
  match buf with
  | [] => []
  | _ :: rest =>
      if (cap <? length buf)%nat then shiftWhileOver cap rest else buf
  end.

(** What [appendInstanceLog] leaves in [instanceLogs[name]]. *)
Definition appendLines (buf : list string) (text : string) : list string :=
  shiftWhileOver logCapacity (pushLines buf (splitLines EmptyString text)).

Definition appendInstanceLog (name text : string) (st : State) : State :=
  let buf := default [] (instanceLogs st !! name) in
  perform [EvEmit (Some name) "log"]
    (setInstanceLogs (<[name := appendLines buf text]> (instanceLogs st)) st).

(** [GET /instances/:name/logs]: the stored lines; a missing buffer is
    answered with the empty string, here the empty list. *)
Definition routeGetLogs (name : string) (st : State) : list string :=
  default [] (instanceLogs st !! name).

(** ** server.js: Reconciliation *)

(** [inst.pid && isPidRunning(inst.pid)]; [alive] is the zero-signal
    probe [isPidRunning]. *)
Definition isRunningNow (alive : Z → bool) (inst : Instance) : JsVal :=
  jsAnd (pidVal (inst_pid inst)) (JsBool (alive (default 0 (inst_pid inst)))).

(** The start-up loop over [instances] (before the first save). *)
Definition initialCheck (alive : Z → bool) (inst : Instance) : Instance :=
  if truthy (isRunningNow alive inst)
  then withRuntime inst "running" (inst_pid inst)
  else withRuntime inst "stopped" None.

(** Start of the supervisor: load, check, save.  The manager starts
    with an empty Map and [nextId = 1]. *)
Definition startup (loaded : gmap string Instance) (rules : list DisabledRule)
    (alive : Z → bool) : State :=
  saveInstances
    {| instances := initialCheck alive <$> loaded; instanceLogs := ∅;
       pm := {| pm_processes := []; pm_nextId := 1; pm_disabledCommands := rules |};
       disk := loaded; trace := [] |}.

Definition tickChanges (alive : Z → bool) (inst : Instance) : bool :=
  strictNe (JsBool (bool_decide (inst_status inst = "running")))
           (isRunningNow alive inst).

(** The body of the periodic loop for one instance. *)
Definition tickInstance (alive : Z → bool) (inst : Instance) : Instance :=
  if tickChanges alive inst then
    let now := isRunningNow alive inst in
    withRuntime inst (if truthy now then "running" else "stopped")
                (if negb (truthy now) then None else inst_pid inst)
  else inst.

(** One run of the [setInterval] callback. *)
Definition tick (alive : Z → bool) (st : State) : State :=
  let changed :=
    existsb (fun kv => tickChanges alive kv.2) (map_to_list (instances st)) in
  let st1 := setInstances (tickInstance alive <$> instances st) st in
  if changed then
    perform [EvEmitRegistry "instancesStatus" (instances st1)] (saveInstances st1)
  else st1.

(** ** server.js: Lifecycle *)

(** [POST /instances].  [instances[name]] is truthy for an instance the
    registry holds and for a name the object inherits. *)
Definition register (name workingDir cmd : string) (st : State) : State * Result unit :=
  if bool_decide (name = EmptyString) || bool_decide (workingDir = EmptyString)
     || bool_decide (cmd = EmptyString)
  then (st, Throw "Missing fields")
  else
    match instances st !! name with
    | Some _ => (st, Throw "Instance already exists")
    | None =>
        if inherited name then (st, Throw "Instance already exists")
        else
          let inst := {| inst_name := name; inst_workingDir := workingDir;
                         inst_command := cmd; inst_status := "stopped";
                         inst_pid := None |} in
          (saveInstances (setInstances (<[name := inst]> (instances st)) st), Ok tt)
    end.

(** [const [command, ...args] = instance.command.split(' ')] *)
Definition splitCommand (commandLine : string) : string * list string :=
  match splitOn SP EmptyString commandLine with
  | [] => (EmptyString, [])
  | c :: args => (c, args)
  end.

(** [startServer(name, io)].  [localPath] is [Some fullPath] when
    [path.join(workingDir, command)] exists on disk, [os] is what
    [spawn] does.  For a name the object inherits, [instance] is the
    inherited function, [instance.command] is undefined and
    [instance.command.split] throws a TypeError (its message is
    abbreviated to the error's name). *)
Definition startServer (name : string) (localPath : option string)
    (os : SpawnOutcome) (st : State) : State * Result Z :=
  match instances st !! name with
  | None =>
      if inherited name then (st, Throw "TypeError")
      else (st, Throw "Instance not found")
  | Some instance =>
      let '(cmd, args) := splitCommand (inst_command instance) in
      let cmdToRun := default cmd localPath in
      let '(id, pm1, evs) :=
        spawnProcess cmdToRun args (inst_workingDir instance) os (pm st) in
      let st1 := perform evs (setPm pm1 st) in
      match pmGet id (pm_processes pm1) ≫= (fun info => truthyPid (pi_pid info)) with
      | None => (st1, Throw ("Failed to start process for " +:+ name))
      | Some p =>
          let st2 :=
            setInstances (<[name := withRuntime instance "running" (Some p)]> (instances st1)) st1 in
          (perform [EvEmit (Some name) "statusUpdate"] (saveInstances st2), Ok p)
      end
  end.

(** How the wait inside [stopServer] ends. *)
Inductive StopOutcome :=
| StdinWriteThrows (message : string)
| ExitsInGrace
| GraceElapses.

(** The line written to the child's stdin. *)
Definition stopLine : string := "stop" +:+ String LF EmptyString.

(** The grace window of [stopServer], in milliseconds. *)
Definition stopGraceMs : Z := 60000 * 5.

(** [[...pm.processes.values()].find(p => p.pid === instance.pid)] *)
Definition findByPid (p : option Z) (handles : list ProcInfo) : option ProcInfo :=
  List.find (fun h => bool_decide (pi_pid h = p)) handles.

(** The [cleanup] closure of [stopServer]. *)
Definition cleanup (name : string) (instance : Instance) (foundId : nat)
    (st : State) : State :=
  let st1 := setInstances (<[name := withRuntime instance "stopped" None]> (instances st)) st in
  let pm1 := {| pm_processes := pmDelete foundId (pm_processes (pm st1));
                pm_nextId := pm_nextId (pm st1);
                pm_disabledCommands := pm_disabledCommands (pm st1) |} in
  saveInstances (setPm pm1 st1).

(** [stopServer(name)] *)
Definition stopServer (name : string) (outcome : StopOutcome) (st : State)
    : State * Result unit :=
  match instances st !! name with
  | None => (st, Throw "Instance not running")
  | Some instance =>
      match truthyPid (inst_pid instance) with
      | None => (st, Throw "Instance not running")
      | Some p =>
          match findByPid (inst_pid instance) (pm_processes (pm st)) with
          | None => (st, Throw "Process info not found")
          | Some found =>
              if negb (pi_proc found) then (st, Throw "Process info not found")
              else
                match outcome with
                | StdinWriteThrows message =>
                    (st, Throw ("Failed to send stop command: " +:+ message))
                | ExitsInGrace =>
                    (cleanup name instance (pi_id found)
                       (perform [EvStdinWrite p stopLine; EvExitObserved p] st), Ok tt)
                | GraceElapses =>
                    (cleanup name instance (pi_id found)
                       (perform [EvStdinWrite p stopLine; EvSignal p "SIGKILL"] st), Ok tt)
                end
          end
      end
  end.

(** The ['exit'] listener of [stopServer] firing after the promise has
    settled, which is what happens when the child dies of the SIGKILL:
    [cleanup] runs a second time, on the instance object wherever the
    registry holds it by then. *)
Definition lateExit (name : string) (foundId : nat) (st : State) : State :=
  match instances st !! name with
  | Some instance => cleanup name instance foundId st
  | None =>
      saveInstances
        (setPm {| pm_processes := pmDelete foundId (pm_processes (pm st));
                  pm_nextId := pm_nextId (pm st);
                  pm_disabledCommands := pm_disabledCommands (pm st) |} st)
  end.

(** What [stopServer] does to the child before it runs [cleanup]. *)
Definition stopEvents (outcome : StopOutcome) (p : Z) : list Event :=
  match outcome with
  | StdinWriteThrows _ => []
  | ExitsInGrace => [EvStdinWrite p stopLine; EvExitObserved p]
  | GraceElapses => [EvStdinWrite p stopLine; EvSignal p "SIGKILL"]
  end.

(** The polling interval of [waitUntilStopped], in milliseconds. *)
Definition pollInterval : Z := 250.

(** [!instances[name] || instances[name].status === "stopped"]; what
    the object inherits is truthy and has no [status]. *)
Definition stoppedOrGone (name : string) (m : gmap string Instance) : bool :=
  match m !! name with
  | None => negb (inherited name)
  | Some inst => bool_decide (inst_status inst = "stopped")
  end.

(** The message of the rejection in [waitUntilStopped]. *)
Definition timeoutMessage (name : string) : string :=
  "Instance " +:+ name +:+ " did not stop in time.".

(** The [check] closure of [waitUntilStopped].  [view k] is the
    dictionary as the [k]-th call of [check] finds it, [waited] the local
    counter.  [Some (Ok k)]: resolved by the [k]-th call; [Some (Throw _)]:
    rejected; [None]: not settled within [fuel] calls. *)
Fixpoint waitCheck (fuel : nat) (name : string) (timeoutMs : Z)
    (view : nat → gmap string Instance) (k : nat) (waited : Z)
    : option (Result nat) :=
  match fuel with
  | O => None
  | S fuel' =>
      if stoppedOrGone name (view k) then Some (Ok k)
      else
        let waited' := waited + pollInterval in
        if timeoutMs <=? waited'
        then Some (Throw (timeoutMessage name))
        else waitCheck fuel' name timeoutMs view (S k) waited'
  end.

(** [waitUntilStopped(name, timeoutMs)]; the fuel covers every call
    that can happen before [waited] reaches [timeoutMs]. *)
Definition waitUntilStopped (name : string) (timeoutMs : Z)
    (view : nat → gmap string Instance) : option (Result nat) :=
  waitCheck (S (Z.to_nat (timeoutMs / pollInterval))) name timeoutMs view 0 0.

(** The timeout [restartServer] passes to [waitUntilStopped]. *)
Definition restartTimeoutMs : Z := 5000.

(** [restartServer(name, io)].  The continuation of [await
    stopServer(name)] runs in the microtask that follows [resolve()], so
    the first [check] reads the dictionary exactly as [cleanup] left it. *)
Definition restartServer (name : string) (outcome : StopOutcome)
    (localPath : option string) (os : SpawnOutcome) (st : State)
    : State * Result Z :=
  match stopServer name outcome st with
  | (st1, Throw message) => (st1, Throw message)
  | (st1, Ok _) =>
      match waitUntilStopped name restartTimeoutMs (fun _ => instances st1) with
      | Some (Ok _) => startServer name localPath os st1
      | Some (Throw message) => (st1, Throw message)
      | None => (st1, Throw "pending")
      end
  end.

(** [terminateInstance(name)] as declared first in the file (the one
    commented "just kill process"). *)
Definition terminateInstance_kill (name : string) (killError : option string)
    (st : State) : State :=
  match instances st !! name with
  | None => st
  | Some instance =>
      if negb (pidTruthy (inst_pid instance)) then st
      else
        let st1 :=
          match findByPid (inst_pid instance) (pm_processes (pm st)) with
          | Some found =>
              let '(pm1, evs) := killProcess (pi_id found) killError (pm st) in
              perform evs (setPm pm1 st)
          | None => st
          end in
        saveInstances
          (setInstances (<[name := withRuntime instance "terminated" None]> (instances st1)) st1)
  end.

(** [terminateInstance(name, socket)] as declared last in the file (the
    "Terminate instance helper"); being the later of the two function
    declarations of that name, it is the one every call reaches.  Its
    first statement, [const proc = processes[name]], evaluates an
    identifier that has no declaration: it throws a ReferenceError, and
    nothing after it runs. *)
Definition terminateInstance (name : string) (st : State) : State * Result unit :=
  (st, Throw processesNotDefined).

(** [POST /instances/:name/terminate].  The handler reads [processes]
    in its second statement, before it answers or changes anything. *)
Definition routeTerminate (name : string) (st : State) : State * Result unit :=
  (st, Throw processesNotDefined).

(** The "stop" case of [socket.on('instanceAction', ...)]: after
    [stopServer] resolves, the handler sets the status and the pid once
    more and saves again. *)
Definition instanceAction_stop (name : string) (outcome : StopOutcome)
    (st : State) : State :=
  match instances st !! name with
  | None => perform [EvEmit None "actionResponse"] st
  | Some _ =>
      match stopServer name outcome st with
      | (st1, Throw _) => perform [EvEmit None "actionResponse"] st1
      | (st1, Ok _) =>
          match instances st1 !! name with
          | None => st1
          | Some inst =>
              let st2 :=
                saveInstances
                  (setInstances (<[name := withRuntime inst "stopped" None]> (instances st1)) st1) in
              perform [EvEmit None "actionResponse";
                       EvEmitRegistry "instancesStatus" (instances st2)] st2
          end
      end
  end.

(** [socket.on("updateInstanceSettings", ...)] *)
Definition updateInstanceSettings (originalName name workingDir cmd : string)
    (st : State) : State :=
  match instances st !! originalName with
  | Some inst =>
      let inst' := {| inst_name := name; inst_workingDir := workingDir;
                      inst_command := cmd; inst_status := inst_status inst;
                      inst_pid := inst_pid inst |} in
      let m :=
        if bool_decide (originalName = name)
        then <[originalName := inst']> (instances st)
        else delete originalName (<[name := inst']> (instances st)) in
      let st1 := setInstances m st in
      perform [EvEmit None "actionResponse"; EvEmitRegistry "instancesList" (instances st1)] st1
  | None => perform [EvEmit None "actionResponse"] st
  end.

(** ** The older server.js *)

Module Legacy.

(** Its module-level variables: [logs] holds one string per instance,
    [processes] the [ChildProcess] of each running instance (here its
    pid). *)
Record State := {
  instances : gmap string Instance;
  logs : gmap string string;
  processes : gmap string (option Z);
  disk : gmap string Instance;
  trace : list Event
}.

Definition saveInstances (st : State) : State :=
  {| instances := instances st; logs := logs st; processes := processes st;
     disk := instances st;
     trace := trace st ++ [EvWriteInstances (instances st)] |}.

(** [startServer(name, io)] *)
Definition startServer (name : string) (os : SpawnOutcome) (st : State)
    : State * Result (option Z) :=
  match instances st !! name with
  | None => (st, Throw "Instance not found")
  | Some instance =>
      match processes st !! name with
      | Some _ => (st, Throw "Instance already running")
      | None =>
          let '(cmd, args) := splitCommand (inst_command instance) in
          let ev := EvSpawn cmd args (inst_workingDir instance) os in
          match os with
          | SpawnThrew message =>
              ({| instances := instances st; logs := logs st;
                  processes := processes st; disk := disk st;
                  trace := trace st ++ [ev] |}, Throw message)
          | Spawned p =>
              let st1 :=
                {| instances := <[name := withRuntime instance "running" p]> (instances st);
                   logs := <[name := EmptyString]> (logs st);
                   processes := <[name := p]> (processes st);
                   disk := disk st;
                   trace := trace st ++ [ev] |} in
              let st2 := saveInstances st1 in
              ({| instances := instances st2; logs := logs st2;
                  processes := processes st2; disk := disk st2;
                  trace := trace st2 ++ [EvEmit (Some name) "statusUpdate"] |}, Ok p)
          end
      end
  end.

(** [terminateInstance(name, socket)] *)
Definition terminateInstance (name : string) (st : State) : State :=
  let '(procs, evs) :=
    match processes st !! name with
    | Some proc =>
        (delete name (processes st),
         match proc with Some p => [EvSignal p "SIGTERM"] | None => [] end)
    | None => (processes st, [])
    end in
  let logs1 :=
    match logs st !! name with
    | Some text =>
        if bool_decide (text = EmptyString) then logs st else delete name (logs st)
    | None => logs st
    end in
  let st1 :=
    saveInstances
      {| instances := delete name (instances st);
         logs := logs1;
         processes := procs; disk := disk st; trace := trace st ++ evs |} in
  {| instances := instances st1; logs := logs st1; processes := processes st1;
     disk := disk st1;
     trace := trace st1 ++ [EvEmit None "actionResponse";
                            EvEmitRegistry "instancesList" (instances st1);
                            EvEmitRegistry "instancesStatus" (instances st1)] |}.

(** [GET /instances/:name/logs] *)
Definition routeGetLogs (name : string) (st : State) : string :=
  default EmptyString (logs st !! name).

End Legacy.

(** ** Runs of the supervisor *)

(** One callback of server.js run to completion, with whatever the
    environment answers. *)
Inductive step : State → State → Prop :=
| step_register name workingDir cmd st :
    step st (register name workingDir cmd st).1
| step_start name localPath os st :
    step st (startServer name localPath os st).1
| step_stop name outcome st :
    step st (stopServer name outcome st).1
| step_late_exit name foundId st :
    step st (lateExit name foundId st)
| step_restart name outcome localPath os st :
    step st (restartServer name outcome localPath os st).1
| step_terminate_kill name killError st :
    step st (terminateInstance_kill name killError st)
| step_terminate name st :
    step st (terminateInstance name st).1
| step_route_terminate name st :
    step st (routeTerminate name st).1
| step_action_stop name outcome st :
    step st (instanceAction_stop name outcome st)
| step_tick alive st :
    step st (tick alive st)
| step_settings originalName name workingDir cmd st :
    step st (updateInstanceSettings originalName name workingDir cmd st)
| step_log name text st :
    step st (appendInstanceLog name text st).

(** The states the supervisor can be in: after start-up on any
    [instances.json], and after any further callback. *)
Inductive reachable : State → Prop :=
| reachable_startup loaded rules alive :
    reachable (startup loaded rules alive)
| reachable_step st st' :
    reachable st → step st st' → reachable st'.

(** [pid] is non-null exactly when [status] is "running". *)
Definition pidIffRunning (inst : Instance) : Prop :=
  inst_pid inst ≠ None ↔ inst_status inst = "running".

Definition registryInvariant (st : State) : Prop :=
  map_Forall (fun _ inst => pidIffRunning inst) (instances st).

(** ** Processes alive, as the supervisor's own effects determine it *)

Definition removePid (q : Z) (live : list Z) : list Z :=
  List.filter (fun x => negb (x =? q)) live.

(** A child lives from the [spawn] that returned its pid until its
    exit is observed; sending it a signal does not end it. *)
Definition liveStep (live : list Z) (ev : Event) : list Z :=
  match ev with
  | EvSpawn _ _ _ (Spawned (Some q)) => live ++ [q]
  | EvExitObserved q => removePid q live
  | _ => live
  end.

Definition liveAfter (live : list Z) (evs : list Event) : list Z :=
  foldl liveStep live evs.

(** At no point of the run [evs], started with the children [live],
    are two children alive. *)
Fixpoint neverTwoLive (live : list Z) (evs : list Event) : Prop :=
  (length live ≤ 1)%nat ∧
  match evs with
  | [] => True
  | ev :: rest => neverTwoLive (liveStep live ev) rest
  end.

Definition isSpawn (ev : Event) : bool :=
  match ev with
  | EvSpawn _ _ _ _ => true
  | _ => false
  end.

(** ** The Log Buffer as the specification words it *)



(** What the code keeps: the lines that [trim()] does not empty. *)
Definition keptLines (text : string) : list string :=
  List.filter (fun line => negb (bool_decide (trim line = EmptyString)))
              (splitLines EmptyString text).

(** ** The wait of a restart, in words *)

(** What a [check] of [waitUntilStopped] looks for: the dictionary has
    no property of that name, own or inherited, or it holds an instance
    whose status is "stopped". *)
Definition absentOrStopped (name : string) (m : gmap string Instance) : Prop :=
  (m !! name = None ∧ name ∉ objectPrototypeNames) ∨
  (∃ inst, m !! name = Some inst ∧ inst_status inst = "stopped").

(** ** A scenario *)

(** The supervisor started on an empty registry with no denylist, then
    "alpha" registered, then started with the OS answering pid 4242. *)
Definition booted : State := startup ∅ [] (fun _ => true).

Definition registered : State :=
  (register "alpha" "/srv/alpha" "run.sh" booted).1.

Definition running : State :=
  (startServer "alpha" None (Spawned (Some 4242)) registered).1.

(** "alpha" running, with one line in its Log Buffer. *)
Definition logged : State := appendInstanceLog "alpha" "Done" running.

(** The same with the rule [{ "command": "rm" }] in the denylist and
    "alpha" set to run [rm -rf world]. *)
Definition guarded : State :=
  (register "alpha" "/srv/alpha" "rm -rf world"
     (startup ∅ [{| rule_command := "rm"; rule_args := None |}] (fun _ => true))).1.

(** ** Persistence *)

(** The registry file holds the registry. *)
Definition persisted (st : State) : Prop := disk st = instances st.

(** An operation either ends with the file equal to the registry, or
    has touched neither. *)
Definition savesOrSkips (st st' : State) : Prop :=
  persisted st' ∨ (instances st' = instances st ∧ disk st' = disk st).

(** ** Further parts of the two files *)

(** The characters that [appendError] replaces in a command: the code
    units below 32 and the nine characters less-than, greater-than,
    colon, double quote, slash, backslash, bar, question mark, star. *)
Definition isUnsafeFileChar (c : ascii) : bool :=
  let n := codeUnit c in
  ((n <=? 31) || (n =? 60) || (n =? 62) || (n =? 58) || (n =? 34) || (n =? 47)
   || (n =? 92) || (n =? 124) || (n =? 63) || (n =? 42))%N.

Definition UNDERSCORE : ascii := Ascii.ascii_of_nat 95.

(** The [command.replace(..., "_")] of [appendError]. *)
Fixpoint safeCommand (cmd : string) : string :=
  match cmd with
  | EmptyString => EmptyString
  | String c rest =>
      String (if isUnsafeFileChar c then UNDERSCORE else c) (safeCommand rest)
  end.

(** The name of the per-command log file inside [logDir]. *)
Definition logFileName (cmd : string) : string := safeCommand cmd +:+ "_log.txt".

(** The code unit [c] occurs in [s]. *)
Fixpoint containsUnit (c : ascii) (s : string) : bool :=
  match s with
  | EmptyString => false
  | String d rest => Ascii.eqb d c || containsUnit c rest
  end.

(** The last code unit of [s] is CR. *)
Fixpoint endsWithCR (s : string) : bool :=
  match s with
  | EmptyString => false
  | String c EmptyString => Ascii.eqb c CR
  | String _ rest => endsWithCR rest
  end.

(** [(instanceLogs[instance] || []).join('\n')], the [logs] field that
    the "subscribe" handler sends to a client that joins the instance. *)
Definition logText (name : string) (st : State) : string :=
  join (String LF EmptyString) (default [] (instanceLogs st !! name)).

(** The supervisor's Map is in order: ids are distinct, lie between 1
    and [nextId], and a handle that has a pid holds its [ChildProcess]. *)
Definition handleOk (nextId : nat) (h : ProcInfo) : Prop :=
  (0 < pi_id h < nextId)%nat ∧ (pi_pid h ≠ None → pi_proc h = true).

Definition pmOk (m : ProcessManager) : Prop :=
  (0 < pm_nextId m)%nat ∧
  NoDup (pi_id <$> pm_processes m) ∧
  Forall (handleOk (pm_nextId m)) (pm_processes m).

(** A line the Log Buffer may hold: not blank, and free of LF. *)
Definition lineOk (line : string) : Prop :=
  allWhiteSpace line = false ∧ containsUnit LF line = false.

Definition logsOk (st : State) : Prop :=
  map_Forall (fun _ buf => (length buf ≤ 400)%nat ∧ Forall lineOk buf)
             (instanceLogs st).


(** The last [n] elements of a list. *)
Definition lastN {A : Type} (n : nat) (l : list A) : list A :=
  drop (length l - n)%nat l.

(** The older file's ['exit'] listener, registered by its [startServer].
    [code] is the exit code, [null] when a signal ended the child.
    Writing [status] on a missing entry throws after [processes[name]]
    has been deleted; [logs[name] +=] on a missing log starts from the
    text "undefined". *)
Definition legacyOnExit (name : string) (code : option Z) (st : Legacy.State)
    : Legacy.State * Result unit :=
  let procs := delete name (Legacy.processes st) in
  match Legacy.instances st !! name with
  | None =>
      ({| Legacy.instances := Legacy.instances st; Legacy.logs := Legacy.logs st;
          Legacy.processes := procs; Legacy.disk := Legacy.disk st;
          Legacy.trace := Legacy.trace st |}, Throw "TypeError")
  | Some inst =>
      let marker :=
        "[Process exited with code " +:+
        match code with Some n => pretty n | None => "null" end +:+
        "]" +:+ String LF EmptyString in
      let st1 :=
        {| Legacy.instances :=
             <[name := withRuntime inst "stopped" None]> (Legacy.instances st);
           Legacy.logs :=
             <[name := default "undefined" (Legacy.logs st !! name) +:+ marker]>
               (Legacy.logs st);
           Legacy.processes := procs; Legacy.disk := Legacy.disk st;
           Legacy.trace :=
             Legacy.trace st ++ [EvEmit (Some name) "log";
                                 EvEmit (Some name) "statusUpdate"] |} in
      (Legacy.saveInstances st1, Ok tt)
  end.

(** The older file with "alpha" registered and nothing running. *)
Definition legacyRegistered : Legacy.State :=
  {| Legacy.instances := instances registered; Legacy.logs := ∅;
     Legacy.processes := ∅; Legacy.disk := instances registered;
     Legacy.trace := [] |}.

(** The effects the first [terminateInstance] is limited to: write the registry
    file, append to a log file, send SIGTERM. *)
Definition gentleEvent (ev : Event) : bool :=
  match ev with
  | EvWriteInstances _ => true
  | EvAppendFile _ _ => true
  | EvSignal _ signal => bool_decide (signal = "SIGTERM")
  | _ => false
  end.

(* ===================================================================== *)
(** * Part II: properties                                                 *)
(* ===================================================================== *)

(** ** Command Gate *)

Lemma argsLoop_spec (ruleArgs : list string) (i : nat) (argsLower : list string) :
  argsLoop ruleArgs i argsLower = true ↔
  ∀ (j : nat) (x : string), ruleArgs !! j = Some x →
    argsLower !! (i + j)%nat = Some (toLowerCase x).
Proof.
  revert i. induction ruleArgs as [|r rest IH]; intros i; simpl.
  - split; [intros _ j x Hj; by rewrite lookup_nil in Hj | done].
  - split.
    + intros H j x Hj.
      destruct (argsLower !! i) as [a|] eqn:Ha; [|done].
      case_bool_decide as Hr; [|done].
      destruct j as [|j]; simpl in Hj.
      * injection Hj as <-. by rewrite Nat.add_0_r, Ha, Hr.
      * replace (i + S j)%nat with (S i + j)%nat by lia.
        by apply (proj1 (IH (S i)) H).
    + intros H.
      pose proof (H 0%nat r eq_refl) as H0. rewrite Nat.add_0_r in H0.
      rewrite H0. rewrite bool_decide_true by done.
      apply IH. intros j x Hj.
      replace (S i + j)%nat with (i + S j)%nat by lia. by apply H.
Qed.

Lemma ruleMatches_spec (entry : DisabledRule) (command : string) (args : list string) :
  ruleMatches (toLowerCase command) (toLowerCase <$> args) entry = true ↔
  ruleBlocks_spec entry command args.
Proof.
  unfold ruleMatches, ruleBlocks_spec, equalIgnoringCase.
  case_bool_decide as Hc; [|split; [done | intros [? _]; done]].
  destruct (rule_args entry) as [[|r rest]|]; [naive_solver | | naive_solver].
  set (ruleArgs := r :: rest).
  destruct (Nat.ltb_spec (length (toLowerCase <$> args)) (length ruleArgs)) as [Hlt|Hge].
  - split; [done|]. intros [_ [Hnil | Hall]]; [done|].
    rewrite length_fmap in Hlt.
    assert (is_Some (ruleArgs !! length args)) as [x Hx]
      by (apply lookup_lt_is_Some; lia).
    destruct (Hall _ _ Hx) as (a & Ha & _).
    apply lookup_lt_Some in Ha. lia.
  - rewrite argsLoop_spec. split.
    + intros H. split; [done|]. right. intros i x Hx.
      specialize (H i x Hx). simpl in H.
      rewrite list_lookup_fmap in H.
      destruct (args !! i) as [a|]; [|done]. simpl in H.
      exists a. split; [done|]. congruence.
    + intros [_ [Hnil | Hall]] j x Hx; [done|].
      destruct (Hall j x Hx) as (a & Ha & Heq). simpl.
      rewrite list_lookup_fmap, Ha. simpl. by rewrite Heq.
Qed.

Example gate_ignores_case :
  isCommandWithArgsDisabled
    [{| rule_command := "rm"; rule_args := Some ["-rf"] |}] "RM" ["-RF"; "/"] = true.
Proof. reflexivity. Qed.

Example gate_needs_whole_prefix :
  isCommandWithArgsDisabled
    [{| rule_command := "rm"; rule_args := Some ["-rf"; "/"] |}] "rm" ["-rf"] = false.
Proof. reflexivity. Qed.

Example gate_other_argument :
  isCommandWithArgsDisabled
    [{| rule_command := "rm"; rule_args := Some ["-rf"] |}] "rm" ["-r"; "-rf"] = false.
Proof. reflexivity. Qed.

Example gate_no_prefix :
  isCommandWithArgsDisabled
    [{| rule_command := "Shutdown"; rule_args := None |}] "shutdown" ["now"] = true.
Proof. reflexivity. Qed.

(** C6. The gate answers [true] exactly when some rule names the
    command, compared without regard to case, and either carries no
    argument prefix (absent or empty) or each of its arguments equals, in
    order and without regard to case, the request's argument at the same
    position. *)
Theorem isCommandWithArgsDisabled_iff_spec
    (rules : list DisabledRule) (command : string) (args : list string) :
  isCommandWithArgsDisabled rules command args = true ↔
  isDisabled_spec rules command args.
Proof.
  unfold isCommandWithArgsDisabled, isDisabled_spec.
  rewrite existsb_exists. split.
  - intros (r & Hin & Hr). exists r. split; [by apply list_elem_of_In|].
    by apply ruleMatches_spec.
  - intros (r & Hin & Hr). exists r. split; [by apply list_elem_of_In|].
    by apply ruleMatches_spec.
Qed.

(** ** Log Buffer *)

Lemma pushLines_filter (buf lines : list string) :
  pushLines buf lines =
  buf ++ List.filter (fun line => negb (bool_decide (trim line = EmptyString))) lines.
Proof.
  revert buf. induction lines as [|line rest IH]; intros buf; simpl.
  - by rewrite app_nil_r.
  - case_bool_decide; simpl; [apply IH|].
    rewrite IH. by rewrite <- app_assoc.
Qed.

Lemma shiftWhileOver_drop (cap : nat) (buf : list string) :
  shiftWhileOver cap buf = drop (length buf - cap)%nat buf.
Proof.
  induction buf as [|x rest IH]; simpl; [done|].
  destruct (Nat.ltb_spec cap (S (length rest))) as [Hlt|Hge].
  - rewrite IH. replace (S (length rest) - cap)%nat with (S (length rest - cap)) by lia.
    done.
  - replace (S (length rest) - cap)%nat with 0%nat by lia. done.
Qed.

Lemma appendLines_drop (buf : list string) (text : string) :
  appendLines buf text =
  drop (length (buf ++ keptLines text) - logCapacity)%nat (buf ++ keptLines text).
Proof.
  unfold appendLines, keptLines.
  by rewrite shiftWhileOver_drop, pushLines_filter.
Qed.

Lemma appendLines_length (buf : list string) (text : string) :
  (length (appendLines buf text) ≤ logCapacity)%nat.
Proof. rewrite appendLines_drop, length_drop. lia. Qed.

Example splitLines_crlf :
  splitLines EmptyString ("a" +:+ String CR (String LF "b") +:+ String LF "" +:+ String LF " c")
  = ["a"; "b"; ""; " c"].
Proof. reflexivity. Qed.

Example trim_blank : trim (String SP (String CR " ")) = EmptyString.
Proof. reflexivity. Qed.

Example trim_inner : trim "  a b  " = "a b".
Proof. reflexivity. Qed.

Lemma allWhiteSpace_rev_app (a b : string) :
  allWhiteSpace (String.rev_app a b) = allWhiteSpace a && allWhiteSpace b.
Proof.
  revert b. induction a as [|c a IH]; intros b; simpl; [done|].
  rewrite IH. simpl. destruct (isWhiteSpace c), (allWhiteSpace a); simpl; try done.
  all: by destruct (allWhiteSpace b).
Qed.

Lemma rev_app_empty (a b : string) :
  String.rev_app a b = EmptyString → a = EmptyString ∧ b = EmptyString.
Proof.
  revert b. induction a as [|c a IH]; intros b; simpl; [done|].
  intros H. by destruct (IH _ H) as [_ ?].
Qed.

Lemma trimStart_empty (s : string) :
  trimStart s = EmptyString ↔ allWhiteSpace s = true.
Proof.
  induction s as [|c s IH]; simpl; [done|].
  destruct (isWhiteSpace c); simpl; [done|]. split; done.
Qed.

Lemma allWhiteSpace_trimStart (s : string) :
  allWhiteSpace (trimStart s) = allWhiteSpace s.
Proof.
  induction s as [|c s IH]; simpl; [done|].
  destruct (isWhiteSpace c) eqn:Hc; simpl; [done|]. by rewrite Hc.
Qed.

(** [line.trim() === ""] holds exactly for the lines that consist of
    white space only, the empty line among them. *)
Lemma trim_empty_iff (s : string) :
  trim s = EmptyString ↔ allWhiteSpace s = true.
Proof.
  unfold trim, trimEnd, String.rev.
  rewrite <- (allWhiteSpace_trimStart s).
  set (t := trimStart s). split.
  - intros H. apply rev_app_empty in H as [H _].
    apply trimStart_empty in H.
    rewrite allWhiteSpace_rev_app in H. simpl in H.
    by rewrite andb_true_r in H.
  - intros H.
    assert (trimStart (String.rev_app t EmptyString) = EmptyString) as ->; [|done].
    apply trimStart_empty. rewrite allWhiteSpace_rev_app. simpl.
    by rewrite andb_true_r.
Qed.





(** ** Reconciliation *)

Lemma tick_instances (alive : Z → bool) (st : State) :
  instances (tick alive st) = tickInstance alive <$> instances st.
Proof. unfold tick. by destruct (existsb _ _). Qed.

Lemma tick_unchanged (alive : Z → bool) (m : gmap string Instance) :
  existsb (fun kv => tickChanges alive kv.2) (map_to_list m) = false →
  tickInstance alive <$> m = m.
Proof.
  intros Hnone. apply map_eq. intros name. rewrite lookup_fmap.
  destruct (m !! name) as [inst|] eqn:Hl; [|done]. simpl. f_equal.
  unfold tickInstance.
  destruct (tickChanges alive inst) eqn:Hc; [|done].
  assert (existsb (fun kv => tickChanges alive kv.2) (map_to_list m) = true) as Ht.
  { apply existsb_exists. exists (name, inst). split; [|done].
    apply list_elem_of_In. by apply elem_of_map_to_list. }
  congruence.
Qed.

Lemma tickInstance_dead (alive : Z → bool) (inst : Instance) (p : Z) :
  inst_status inst = "running" → inst_pid inst = Some p → alive p = false →
  tickInstance alive inst = withRuntime inst "stopped" None.
Proof.
  intros Hs Hp Ha. unfold tickInstance, tickChanges, isRunningNow.
  rewrite Hs, Hp. rewrite bool_decide_true by done.
  change (default 0 (Some p)) with p. rewrite Ha.
  unfold jsAnd, pidVal, truthy, strictNe.
  destruct (p =? 0) eqn:Hz; simpl; by rewrite ?Hz.
Qed.

(** A stopped instance with a null pid makes [isRunningNow] null, and
    [false !== null] holds: the run counts it as a change, rewrites the
    same status and pid, and saves. *)
Example tick_on_stopped_instance :
  tick (fun _ => false) registered
  = perform [EvEmitRegistry "instancesStatus" (instances registered)]
      (saveInstances registered).
Proof. vm_compute. reflexivity. Qed.

Lemma tickChanges_dead (alive : Z → bool) (inst : Instance) (p : Z) :
  inst_status inst = "running" → inst_pid inst = Some p → alive p = false →
  tickChanges alive inst = true.
Proof.
  intros Hs Hp Ha. unfold tickChanges, isRunningNow.
  rewrite Hs, Hp. rewrite bool_decide_true by done.
  change (default 0 (Some p)) with p. rewrite Ha.
  unfold jsAnd, pidVal, truthy, strictNe.
  destruct (p =? 0) eqn:Hz; simpl; by rewrite ?Hz.
Qed.

(** C8. One run of the periodic check turns every instance that is
    marked running while the probe of its pid fails into a stopped one
    with a null pid, its name, working directory and command kept; such
    a run writes the file once, so that it equals the registry, and
    emits one [instancesStatus] message that carries the whole registry.
    More generally, when the run changes the registry at all, it writes
    once and emits once; a run never writes or emits more than that. *)
Theorem tick_reconciles_and_batches (alive : Z → bool) (st : State) :
  (∀ name inst p,
     instances st !! name = Some inst →
     inst_status inst = "running" → inst_pid inst = Some p → alive p = false →
     instances (tick alive st) !! name = Some (withRuntime inst "stopped" None) ∧
     (∃ inst', instances (tick alive st) !! name = Some inst' ∧
        inst_status inst' = "stopped" ∧ inst_pid inst' = None ∧
        inst_name inst' = inst_name inst ∧
        inst_workingDir inst' = inst_workingDir inst ∧
        inst_command inst' = inst_command inst) ∧
     trace (tick alive st) =
       trace st ++ [EvWriteInstances (instances (tick alive st));
                    EvEmitRegistry "instancesStatus" (instances (tick alive st))] ∧
     disk (tick alive st) = instances (tick alive st)) ∧
  (instances (tick alive st) ≠ instances st →
     trace (tick alive st) =
       trace st ++ [EvWriteInstances (instances (tick alive st));
                    EvEmitRegistry "instancesStatus" (instances (tick alive st))] ∧
     disk (tick alive st) = instances (tick alive st)) ∧
  (trace (tick alive st) = trace st ∨
   trace (tick alive st) =
     trace st ++ [EvWriteInstances (instances (tick alive st));
                  EvEmitRegistry "instancesStatus" (instances (tick alive st))]).
Proof.
  split; [|split].
  - intros name inst p Hl Hs Hp Ha.
    assert (instances (tick alive st) !! name = Some (withRuntime inst "stopped" None))
      as Hnew.
    { rewrite tick_instances, lookup_fmap, Hl. simpl.
      by rewrite (tickInstance_dead alive inst p). }
    split; [exact Hnew|].
    split; [exists (withRuntime inst "stopped" None); by rewrite Hnew|].
    assert (existsb (fun kv : string * Instance => tickChanges alive kv.2)
              (map_to_list (instances st)) = true) as Hc.
    { apply existsb_exists. exists (name, inst). split.
      - apply list_elem_of_In. by apply elem_of_map_to_list.
      - by apply (tickChanges_dead alive inst p). }
    unfold tick. rewrite Hc. simpl. by rewrite <- app_assoc.
  - intros Hne. rewrite tick_instances in Hne. unfold tick.
    destruct (existsb _ _) eqn:Hc.
    + simpl. by rewrite <- app_assoc.
    + by apply tick_unchanged in Hc.
  - unfold tick. destruct (existsb _ _); simpl; [right | by left].
    by rewrite <- app_assoc.
Qed.

Lemma tick_reconciles_and_batches_witness :
  let st := startup ∅ [] (fun _ => true) in
  let gone := {| inst_name := "alpha"; inst_workingDir := "/srv/alpha";
                 inst_command := "run.sh"; inst_status := "running";
                 inst_pid := Some 4242 |} in
  let st1 := setInstances {[ "alpha" := gone ]} st in
  ∃ inst', instances (tick (fun _ => false) st1) !! "alpha" = Some inst' ∧
           inst_status inst' = "stopped" ∧ inst_pid inst' = None ∧
           inst_command inst' = "run.sh".
Proof.
  intros st gone st1.
  destruct (proj1 (tick_reconciles_and_batches (fun _ => false) st1)
              "alpha" gone 4242 eq_refl eq_refl eq_refl eq_refl)
    as (_ & (inst' & Hl & Hs & Hp & _ & _ & Hc) & _).
  exists inst'. split; [exact Hl|]. split; [exact Hs|]. split; [exact Hp|]. exact Hc.
Defined.

(** ** The registry invariant *)

Lemma pidIffRunning_running (inst : Instance) (p : Z) :
  pidIffRunning (withRuntime inst "running" (Some p)).
Proof. unfold pidIffRunning. simpl. split; done. Qed.

Lemma pidIffRunning_halted (inst : Instance) (st : string) :
  st ≠ "running" → pidIffRunning (withRuntime inst st None).
Proof. unfold pidIffRunning. simpl. intros Hne. split; done. Qed.

Lemma initialCheck_ok (alive : Z → bool) (inst : Instance) :
  pidIffRunning (initialCheck alive inst).
Proof.
  unfold initialCheck.
  destruct (truthy (isRunningNow alive inst)) eqn:Hnow;
    [|by apply pidIffRunning_halted].
  unfold isRunningNow, jsAnd in Hnow.
  destruct (inst_pid inst) as [p|]; [apply pidIffRunning_running | done].
Qed.

Lemma tickInstance_ok (alive : Z → bool) (inst : Instance) :
  pidIffRunning inst → pidIffRunning (tickInstance alive inst).
Proof.
  intros Hok. unfold tickInstance.
  destruct (tickChanges alive inst); [|done].
  destruct (truthy (isRunningNow alive inst)) eqn:Hnow; simpl.
  - unfold isRunningNow, jsAnd in Hnow.
    destruct (inst_pid inst) as [p|]; simpl in *; [|done].
    apply pidIffRunning_running.
  - by apply pidIffRunning_halted.
Qed.

Lemma startup_invariant loaded rules alive :
  registryInvariant (startup loaded rules alive).
Proof.
  unfold registryInvariant. simpl. apply map_Forall_fmap.
  intros name inst _. apply initialCheck_ok.
Qed.

Lemma register_invariant name workingDir cmd st :
  registryInvariant st → registryInvariant (register name workingDir cmd st).1.
Proof.
  unfold registryInvariant, register. intros Hinv.
  destruct (_ || _); [done|].
  destruct (instances st !! name); [done|].
  destruct (inherited name); [done|]. simpl.
  apply map_Forall_insert_2; [|done]. unfold pidIffRunning. simpl. split; done.
Qed.

Lemma startServer_invariant name localPath os st :
  registryInvariant st → registryInvariant (startServer name localPath os st).1.
Proof.
  unfold registryInvariant, startServer. intros Hinv.
  destruct (instances st !! name) as [instance|]; [|by destruct (inherited name)].
  destruct (splitCommand _) as [cmd args].
  destruct (spawnProcess _ _ _ _ _) as [[id pm1] evs].
  destruct (_ ≫= _) as [p|]; simpl; [|done].
  apply map_Forall_insert_2; [apply pidIffRunning_running | done].
Qed.

Lemma stopServer_invariant name outcome st :
  registryInvariant st → registryInvariant (stopServer name outcome st).1.
Proof.
  unfold registryInvariant, stopServer. intros Hinv.
  destruct (instances st !! name) as [instance|]; [|done].
  destruct (truthyPid _) as [p|]; [|done].
  destruct (findByPid _ _) as [found|]; [|done].
  destruct (negb _); [done|].
  destruct outcome; simpl; [done| |];
    (apply map_Forall_insert_2; [by apply pidIffRunning_halted | done]).
Qed.

Lemma lateExit_invariant name foundId st :
  registryInvariant st → registryInvariant (lateExit name foundId st).
Proof.
  unfold registryInvariant, lateExit. intros Hinv.
  destruct (instances st !! name) as [instance|]; [|done]. simpl.
  apply map_Forall_insert_2; [by apply pidIffRunning_halted | done].
Qed.

Lemma restartServer_invariant name outcome localPath os st :
  registryInvariant st →
  registryInvariant (restartServer name outcome localPath os st).1.
Proof.
  intros Hinv. unfold restartServer.
  pose proof (stopServer_invariant name outcome st Hinv) as Hstop.
  destruct (stopServer name outcome st) as [st1 [[]|message]]; [|done].
  destruct (waitUntilStopped _ _ _) as [[k|message]|]; try done.
  by apply startServer_invariant.
Qed.

Lemma terminateInstance_kill_invariant name killError st :
  registryInvariant st → registryInvariant (terminateInstance_kill name killError st).
Proof.
  unfold registryInvariant, terminateInstance_kill. intros Hinv.
  destruct (instances st !! name) as [instance|]; [|done].
  destruct (negb _); [done|]. simpl.
  apply map_Forall_insert_2; [by apply pidIffRunning_halted|].
  destruct (findByPid _ _) as [found|]; [|done].
  by destruct (killProcess _ _ _).
Qed.

(** Neither [terminateInstance] nor the terminate route gets past its
    read of [processes]. *)
Lemma terminateInstance_throws name st :
  terminateInstance name st = (st, Throw processesNotDefined).
Proof. reflexivity. Qed.

Lemma routeTerminate_throws name st :
  routeTerminate name st = (st, Throw processesNotDefined).
Proof. reflexivity. Qed.

Lemma instanceAction_stop_invariant name outcome st :
  registryInvariant st → registryInvariant (instanceAction_stop name outcome st).
Proof.
  intros Hinv. unfold instanceAction_stop.
  destruct (instances st !! name); [|done].
  pose proof (stopServer_invariant name outcome st Hinv) as Hstop.
  destruct (stopServer name outcome st) as [st1 [[]|message]]; [|done].
  destruct (instances st1 !! name) as [inst|]; [|done].
  unfold registryInvariant. simpl.
  apply map_Forall_insert_2; [by apply pidIffRunning_halted | done].
Qed.

Lemma tick_invariant alive st :
  registryInvariant st → registryInvariant (tick alive st).
Proof.
  unfold registryInvariant. intros Hinv. rewrite tick_instances.
  apply map_Forall_fmap. intros name inst Hl. apply tickInstance_ok.
  by apply (Hinv name).
Qed.

Lemma updateInstanceSettings_invariant originalName name workingDir cmd st :
  registryInvariant st →
  registryInvariant (updateInstanceSettings originalName name workingDir cmd st).
Proof.
  unfold registryInvariant, updateInstanceSettings. intros Hinv.
  destruct (instances st !! originalName) as [inst|] eqn:Hl; [|done]. simpl.
  assert (pidIffRunning
            {| inst_name := name; inst_workingDir := workingDir;
               inst_command := cmd; inst_status := inst_status inst;
               inst_pid := inst_pid inst |}) as Hok by apply (Hinv _ _ Hl).
  case_bool_decide.
  - by apply map_Forall_insert_2.
  - apply map_Forall_delete. by apply map_Forall_insert_2.
Qed.

Lemma step_invariant st st' :
  registryInvariant st → step st st' → registryInvariant st'.
Proof.
  intros Hinv Hstep. destruct Hstep.
  - by apply register_invariant.
  - by apply startServer_invariant.
  - by apply stopServer_invariant.
  - by apply lateExit_invariant.
  - by apply restartServer_invariant.
  - by apply terminateInstance_kill_invariant.
  - done.
  - done.
  - by apply instanceAction_stop_invariant.
  - by apply tick_invariant.
  - by apply updateInstanceSettings_invariant.
  - done.
Qed.

(** C1. In every state the supervisor can reach, from its start-up on
    any registry file through any sequence of registrations, starts,
    stops, restarts, terminations, settings updates and reconciliation
    runs, each registered instance has a non-null pid exactly when its
    status is "running". *)
Theorem registry_invariant_reachable (st : State) :
  reachable st → registryInvariant st.
Proof.
  induction 1 as [loaded rules alive | st st' _ IH Hstep].
  - apply startup_invariant.
  - by apply (step_invariant st).
Qed.

Lemma registry_invariant_reachable_witness :
  registryInvariant (tick (fun _ => false) running).
Proof.
  apply registry_invariant_reachable.
  eapply reachable_step; [|apply step_tick].
  eapply reachable_step; [|apply step_start].
  eapply reachable_step; [|apply step_register].
  apply reachable_startup.
Defined.

(** ** Stop *)

Lemma pmGet_pmDelete (id : nat) (handles : list ProcInfo) :
  pmGet id (pmDelete id handles) = None.
Proof.
  unfold pmGet, pmDelete. induction handles as [|h rest IH]; simpl; [done|].
  destruct (pi_id h =? id)%nat eqn:Hid; simpl; [done|]. by rewrite Hid.
Qed.

(** C5. For an instance whose pid is tracked by a handle that holds the
    child, [stopServer] writes the line "stop" to the child's stdin and
    waits at most [stopGraceMs].  Whether the child exits in time or the
    window elapses and SIGKILL is sent, the promise resolves, and by then
    the instance is "stopped" with a null pid, the registry file equals
    the registry, and the handle is gone from the supervisor. *)
Theorem stopServer_graceful_or_forced
    (name : string) (st : State) (instance : Instance) (p : Z)
    (found : ProcInfo) (outcome : StopOutcome) :
  instances st !! name = Some instance →
  truthyPid (inst_pid instance) = Some p →
  findByPid (inst_pid instance) (pm_processes (pm st)) = Some found →
  pi_proc found = true →
  outcome = ExitsInGrace ∨ outcome = GraceElapses →
  let st' := (stopServer name outcome st).1 in
  (stopServer name outcome st).2 = Ok tt ∧
  stopGraceMs = 300000 ∧
  instances st' = <[name := withRuntime instance "stopped" None]> (instances st) ∧
  (∃ inst', instances st' !! name = Some inst' ∧
            inst_status inst' = "stopped" ∧ inst_pid inst' = None) ∧
  disk st' = instances st' ∧
  pmGet (pi_id found) (pm_processes (pm st')) = None ∧
  trace st' =
    trace st ++ [EvStdinWrite p stopLine;
                 match outcome with
                 | GraceElapses => EvSignal p "SIGKILL"
                 | _ => EvExitObserved p
                 end;
                 EvWriteInstances (instances st')].
Proof.
  intros Hinst Hpid Hfound Hproc Hout. unfold stopServer.
  rewrite Hinst, Hpid, Hfound, Hproc. simpl.
  destruct Hout as [-> | ->]; simpl.
  all: split; [done|]; split; [done|]; split; [done|].
  all: split; [eexists; split; [apply lookup_insert_eq | done]|].
  all: split; [done|]; split; [apply pmGet_pmDelete|].
  all: by rewrite <- app_assoc.
Qed.

Lemma stopServer_graceful_or_forced_witness :
  (stopServer "alpha" GraceElapses running).2 = Ok tt ∧
  instances (stopServer "alpha" GraceElapses running).1 !! "alpha"
  = Some {| inst_name := "alpha"; inst_workingDir := "/srv/alpha";
            inst_command := "run.sh"; inst_status := "stopped";
            inst_pid := None |}.
Proof.
  destruct (stopServer_graceful_or_forced "alpha" running
              {| inst_name := "alpha"; inst_workingDir := "/srv/alpha";
                 inst_command := "run.sh"; inst_status := "running";
                 inst_pid := Some 4242 |}
              4242
              {| pi_id := 1; pi_command := "run.sh"; pi_args := [];
                 pi_proc := true; pi_pid := Some 4242; pi_errors := [] |}
              GraceElapses)
    as (Hres & _ & Hreg & _); try reflexivity; [by right|].
  split; [exact Hres|]. rewrite Hreg. reflexivity.
Defined.

(** ** Restart *)

Lemma stoppedOrGone_true name m :
  stoppedOrGone name m = true ↔ absentOrStopped name m.
Proof.
  unfold stoppedOrGone, absentOrStopped, inherited.
  destruct (m !! name) as [inst|].
  - rewrite bool_decide_eq_true. split.
    + intros H. right. by exists inst.
    + intros [[? _] | (inst' & [= <-] & H)]; done.
  - rewrite negb_true_iff, bool_decide_eq_false. split.
    + intros H. by left.
    + intros [[_ H] | (inst' & ? & _)]; done.
Qed.

Lemma stoppedOrGone_false name m :
  stoppedOrGone name m = false ↔ ¬ absentOrStopped name m.
Proof. rewrite <- stoppedOrGone_true. symmetry. apply not_true_iff_false. Qed.

Lemma waitCheck_settles fuel name timeoutMs view k waited :
  (0 < fuel)%nat → timeoutMs ≤ waited + pollInterval * Z.of_nat fuel →
  is_Some (waitCheck fuel name timeoutMs view k waited).
Proof.
  revert k waited. induction fuel as [|fuel IH]; intros k waited Hpos Hcover; [lia|].
  simpl. destruct (stoppedOrGone name (view k)); [by eexists|].
  destruct (Z.leb_spec timeoutMs (waited + pollInterval)) as [Hle|Hgt]; [by eexists|].
  unfold pollInterval in *. apply IH; lia.
Qed.

Lemma waitCheck_result fuel name timeoutMs view k waited r :
  waitCheck fuel name timeoutMs view k waited = Some r →
  match r with
  | Ok j =>
      (k ≤ j)%nat ∧ stoppedOrGone name (view j) = true ∧
      (∀ i, (k ≤ i < j)%nat → stoppedOrGone name (view i) = false) ∧
      (j = k ∨ waited + pollInterval * Z.of_nat (j - k) < timeoutMs)
  | Throw message =>
      message = timeoutMessage name ∧
      ∃ j, (k ≤ j)%nat ∧
           (∀ i, (k ≤ i ≤ j)%nat → stoppedOrGone name (view i) = false) ∧
           timeoutMs ≤ waited + pollInterval * Z.of_nat (j - k + 1) ∧
           (j = k ∨ waited + pollInterval * Z.of_nat (j - k) < timeoutMs)
  end.
Proof.
  revert k waited. induction fuel as [|fuel IH]; intros k waited; [done|].
  simpl. destruct (stoppedOrGone name (view k)) eqn:Hk.
  { intros [= <-]. repeat split; [lia | done | intros; lia | by left]. }
  destruct (Z.leb_spec timeoutMs (waited + pollInterval)) as [Hle|Hgt].
  { intros [= <-]. split; [done|]. exists k. repeat split; [lia | | | by left].
    - intros i Hi. by replace i with k by lia.
    - replace (k - k + 1)%nat with 1%nat by lia. lia. }
  intros Hrec. apply IH in Hrec. unfold pollInterval in *.
  destruct r as [j|message].
  - destruct Hrec as (Hkj & Hj & Hbefore & Hbound).
    repeat split; [lia | done | | right].
    + intros i Hi. destruct (decide (i = k)) as [->|]; [done|]. apply Hbefore. lia.
    + destruct Hbound as [-> | Hb].
      * replace (S k - k)%nat with 1%nat by lia. lia.
      * replace (Z.of_nat (j - k)) with (1 + Z.of_nat (j - S k)) by lia. lia.
  - destruct Hrec as (Hm & j & Hkj & Hnone & Hover & Hbound).
    split; [done|]. exists j. repeat split; [lia | | | right].
    + intros i Hi. destruct (decide (i = k)) as [->|]; [done|]. apply Hnone. lia.
    + replace (Z.of_nat (j - k + 1)) with (1 + Z.of_nat (j - S k + 1)) by lia. lia.
    + destruct Hbound as [-> | Hb].
      * replace (S k - k)%nat with 1%nat by lia. lia.
      * replace (Z.of_nat (j - k)) with (1 + Z.of_nat (j - S k)) by lia. lia.
Qed.



Example wait_times_out :
  waitUntilStopped "alpha" 5000 (fun _ => instances running)
  = Some (Throw "Instance alpha did not stop in time.").
Proof. vm_compute. reflexivity. Qed.

Example wait_resolves_at_third_check :
  waitUntilStopped "alpha" 5000
    (fun k => if (k <? 3)%nat then instances running else instances registered)
  = Some (Ok 3%nat).
Proof. vm_compute. reflexivity. Qed.


Lemma stopServer_tracked name st instance p found outcome :
  instances st !! name = Some instance →
  truthyPid (inst_pid instance) = Some p →
  findByPid (inst_pid instance) (pm_processes (pm st)) = Some found →
  pi_proc found = true →
  stopServer name outcome st =
    match outcome with
    | StdinWriteThrows message =>
        (st, Throw ("Failed to send stop command: " +:+ message))
    | _ => (cleanup name instance (pi_id found) (perform (stopEvents outcome p) st), Ok tt)
    end.
Proof.
  intros Hinst Hpid Hfound Hproc. unfold stopServer.
  rewrite Hinst, Hpid, Hfound, Hproc. by destruct outcome.
Qed.





(** C4, at a failing input.  "alpha" runs as child 4242, which does not
    exit within the grace window.  The restart sends SIGKILL, marks the
    instance stopped at once, so that the first check of its wait
    resolves, and spawns child 4243.  No exit of 4242 has been observed
    by then: two children of the instance are alive after the spawn.
    When the exit of 4242 is observed afterwards, its listener marks
    "alpha" stopped with a null pid, although child 4243 runs under
    handle 2. *)
Theorem restartServer_overlaps_after_kill :
  let r := restartServer "alpha" GraceElapses None (Spawned (Some 4243)) running in
  let evs := drop (length (trace running)) (trace r.1) in
  r.2 = Ok 4243 ∧
  waitUntilStopped "alpha" 5000
    (fun _ => instances (stopServer "alpha" GraceElapses running).1) = Some (Ok 0%nat) ∧
  evs = [EvStdinWrite 4242 stopLine; EvSignal 4242 "SIGKILL";
         EvWriteInstances
           {[ "alpha" := {| inst_name := "alpha"; inst_workingDir := "/srv/alpha";
                            inst_command := "run.sh"; inst_status := "stopped";
                            inst_pid := None |} ]};
         EvSpawn "run.sh" [] "/srv/alpha" (Spawned (Some 4243));
         EvWriteInstances
           {[ "alpha" := {| inst_name := "alpha"; inst_workingDir := "/srv/alpha";
                            inst_command := "run.sh"; inst_status := "running";
                            inst_pid := Some 4243 |} ]};
         EvEmit (Some "alpha") "statusUpdate"] ∧
  (∀ q, ¬ In (EvExitObserved q) evs) ∧
  liveAfter [4242] evs = [4242; 4243] ∧
  ¬ neverTwoLive [4242] evs ∧
  instances (lateExit "alpha" 1 r.1) !! "alpha"
    = Some {| inst_name := "alpha"; inst_workingDir := "/srv/alpha";
              inst_command := "run.sh"; inst_status := "stopped";
              inst_pid := None |} ∧
  (fun h => (pi_id h, pi_pid h)) <$> pm_processes (pm (lateExit "alpha" 1 r.1))
    = [(2%nat, Some 4243)].
Proof.
  assert (drop (length (trace running))
            (trace (restartServer "alpha" GraceElapses None
                      (Spawned (Some 4243)) running).1)
          = [EvStdinWrite 4242 stopLine; EvSignal 4242 "SIGKILL";
             EvWriteInstances
               {[ "alpha" := {| inst_name := "alpha"; inst_workingDir := "/srv/alpha";
                                inst_command := "run.sh"; inst_status := "stopped";
                                inst_pid := None |} ]};
             EvSpawn "run.sh" [] "/srv/alpha" (Spawned (Some 4243));
             EvWriteInstances
               {[ "alpha" := {| inst_name := "alpha"; inst_workingDir := "/srv/alpha";
                                inst_command := "run.sh"; inst_status := "running";
                                inst_pid := Some 4243 |} ]};
             EvEmit (Some "alpha") "statusUpdate"]) as Hevs
    by (vm_compute; reflexivity).
  cbv zeta. rewrite Hevs.
  split; [vm_compute; reflexivity|]. split; [vm_compute; reflexivity|].
  split; [reflexivity|].
  split; [intros q Hin; simpl in Hin; intuition discriminate|].
  split; [reflexivity|].
  split; [simpl; lia|].
  split; vm_compute; reflexivity.
Qed.

Example restart_scenario :
  (restartServer "alpha" ExitsInGrace None (Spawned (Some 4243)) running).2 = Ok 4243 ∧
  drop (length (trace running))
       (trace (restartServer "alpha" ExitsInGrace None (Spawned (Some 4243)) running).1)
  = [EvStdinWrite 4242 stopLine; EvExitObserved 4242;
     EvWriteInstances
       {[ "alpha" := {| inst_name := "alpha"; inst_workingDir := "/srv/alpha";
                        inst_command := "run.sh"; inst_status := "stopped";
                        inst_pid := None |} ]};
     EvSpawn "run.sh" [] "/srv/alpha" (Spawned (Some 4243));
     EvWriteInstances
       {[ "alpha" := {| inst_name := "alpha"; inst_workingDir := "/srv/alpha";
                        inst_command := "run.sh"; inst_status := "running";
                        inst_pid := Some 4243 |} ]};
     EvEmit (Some "alpha") "statusUpdate"].
Proof. split; vm_compute; reflexivity. Qed.

(** ** Start and the Command Gate *)

Lemma pmGet_pmSet (id : nat) (info : ProcInfo) (handles : list ProcInfo) :
  pi_id info = id → pmGet id (pmSet info handles) = Some info.
Proof.
  intros <-. unfold pmGet. induction handles as [|h rest IH]; simpl.
  - by rewrite Nat.eqb_refl.
  - destruct (pi_id h =? pi_id info)%nat eqn:Hid; simpl.
    + by rewrite Nat.eqb_refl.
    + by rewrite Hid.
Qed.

Lemma pmGet_pushError (id : nat) (msg : string) (handles : list ProcInfo) :
  pmGet id ((fun p => if (pi_id p =? id)%nat then pushError msg p else p) <$> handles)
  = pushError msg <$> pmGet id handles.
Proof.
  unfold pmGet. induction handles as [|h rest IH]; simpl; [done|].
  destruct (pi_id h =? id)%nat eqn:Hid; simpl; by rewrite Hid.
Qed.

(** What holds of a refused start: the promise rejects, the registry
    and its file are untouched, nothing is spawned, and the handle made
    for the attempt has no pid.  Its error list, however, holds the
    refusal twice: once from the record literal and once more from
    [appendError], which pushes onto that same record. *)
Lemma startServer_blocked (name : string) (localPath : option string)
    (os : SpawnOutcome) (st : State) (instance : Instance) :
  instances st !! name = Some instance →
  let cmdToRun := default (splitCommand (inst_command instance)).1 localPath in
  let args := (splitCommand (inst_command instance)).2 in
  isCommandWithArgsDisabled (pm_disabledCommands (pm st)) cmdToRun args = true →
  let st' := (startServer name localPath os st).1 in
  (startServer name localPath os st).2 = Throw ("Failed to start process for " +:+ name) ∧
  instances st' = instances st ∧
  disk st' = disk st ∧
  trace st' = trace st ++ [EvAppendFile cmdToRun (disabledMessage cmdToRun args)] ∧
  (pi_pid <$> pmGet (pm_nextId (pm st)) (pm_processes (pm st'))) = Some None ∧
  checkErrors (pm_nextId (pm st)) (pm st') =
    [disabledMessage cmdToRun args; disabledMessage cmdToRun args].
Proof.
  intros Hinst cmdToRun args Hgate. unfold startServer. rewrite Hinst.
  subst cmdToRun args. destruct (splitCommand _) as [cmd args]. simpl in *.
  unfold spawnProcess. rewrite Hgate. unfold appendError. cbn [pm_processes].
  rewrite pmGet_pushError.
  rewrite pmGet_pmSet by done.
  simpl. unfold checkErrors. simpl. rewrite pmGet_pushError.
  rewrite pmGet_pmSet by done.
  done.
Qed.

(** C2, at a failing input.  With the rule [{ "command": "rm" }] and
    "alpha" set to run [rm -rf world], the start is refused: it rejects,
    "alpha" stays stopped with a null pid and nothing is spawned.  But
    the handle of the refused attempt holds two error strings, not one. *)
Theorem startServer_refusal_recorded_twice :
  (startServer "alpha" None (Spawned (Some 4242)) guarded).2
    = Throw "Failed to start process for alpha" ∧
  instances (startServer "alpha" None (Spawned (Some 4242)) guarded).1
    = instances guarded ∧
  existsb isSpawn (trace (startServer "alpha" None (Spawned (Some 4242)) guarded).1)
    = false ∧
  checkErrors 1 (pm (startServer "alpha" None (Spawned (Some 4242)) guarded).1)
    = [disabledMessage "rm" ["-rf"; "world"]; disabledMessage "rm" ["-rf"; "world"]] ∧
  length (checkErrors 1 (pm (startServer "alpha" None (Spawned (Some 4242)) guarded).1))
    = 2%nat.
Proof. repeat split; vm_compute; reflexivity. Qed.

(** An unknown name that the object does not inherit: both files
    reject with "Instance not found". *)
Lemma startServer_not_found name localPath os st :
  instances st !! name = None → inherited name = false →
  startServer name localPath os st = (st, Throw "Instance not found").
Proof. intros H Hn. unfold startServer. by rewrite H, Hn. Qed.

(** The older file guards a second start: when a child is already
    tracked for the name, it rejects with "Instance already running"
    and changes nothing. *)
Lemma legacy_startServer_already_running name os st instance proc :
  Legacy.instances st !! name = Some instance →
  Legacy.processes st !! name = Some proc →
  Legacy.startServer name os st = (st, Throw "Instance already running").
Proof. intros Hi Hp. unfold Legacy.startServer. by rewrite Hi, Hp. Qed.

(** C10, at a failing input.  "alpha" is running as pid 4242 under
    handle 1.  A second [startServer] does not reject: it spawns again,
    resolves with the new pid, overwrites the pid in the registry and
    leaves two handles with a child each. *)
Theorem startServer_twice_spawns_twice :
  (startServer "alpha" None (Spawned (Some 4243)) running).2 = Ok 4243 ∧
  instances running !! "alpha"
    = Some {| inst_name := "alpha"; inst_workingDir := "/srv/alpha";
              inst_command := "run.sh"; inst_status := "running";
              inst_pid := Some 4242 |} ∧
  instances (startServer "alpha" None (Spawned (Some 4243)) running).1 !! "alpha"
    = Some {| inst_name := "alpha"; inst_workingDir := "/srv/alpha";
              inst_command := "run.sh"; inst_status := "running";
              inst_pid := Some 4243 |} ∧
  pi_pid <$> pm_processes (pm (startServer "alpha" None (Spawned (Some 4243)) running).1)
    = [Some 4242; Some 4243] ∧
  List.filter isSpawn
    (drop (length (trace running))
          (trace (startServer "alpha" None (Spawned (Some 4243)) running).1))
    = [EvSpawn "run.sh" [] "/srv/alpha" (Spawned (Some 4243))].
Proof. repeat split; vm_compute; reflexivity. Qed.

(** ** Terminate *)

(** C3, at a failing input.  "alpha" is running as child 4242 and has
    logged one line.  [terminateInstance], as every call reaches it,
    throws the ReferenceError on [processes] before it deletes, saves,
    signals or emits anything, and so does the terminate route.  "alpha"
    therefore stays in the registry, running with pid 4242; a later
    start is not rejected as not found but spawns again, and the log
    route still answers with the line.  The earlier declaration of
    [terminateInstance], were it the one called, keeps the entry too,
    marked "terminated", and the line with it. *)
Theorem terminate_removes_nothing :
  terminateInstance "alpha" logged = (logged, Throw "processes is not defined") ∧
  routeTerminate "alpha" logged = (logged, Throw "processes is not defined") ∧
  (∃ inst, instances (terminateInstance "alpha" logged).1 !! "alpha" = Some inst ∧
           inst_status inst = "running" ∧ inst_pid inst = Some 4242) ∧
  trace (terminateInstance "alpha" logged).1 = trace logged ∧
  disk (terminateInstance "alpha" logged).1 = disk logged ∧
  (startServer "alpha" None (Spawned (Some 4243))
     (terminateInstance "alpha" logged).1).2 = Ok 4243 ∧
  routeGetLogs "alpha" (terminateInstance "alpha" logged).1 = ["Done"] ∧
  instances (terminateInstance_kill "alpha" None logged) !! "alpha"
    = Some {| inst_name := "alpha"; inst_workingDir := "/srv/alpha";
              inst_command := "run.sh"; inst_status := "terminated";
              inst_pid := None |} ∧
  (startServer "alpha" None (Spawned (Some 4243))
     (terminateInstance_kill "alpha" None logged)).2 = Ok 4243 ∧
  routeGetLogs "alpha" (terminateInstance_kill "alpha" None logged) = ["Done"].
Proof.
  split; [reflexivity|]. split; [reflexivity|].
  split; [eexists; split; [vm_compute; reflexivity | split; reflexivity]|].
  repeat split; vm_compute; reflexivity.
Qed.

(** ** Persistence *)

Lemma savesOrSkips_persisted st st' :
  persisted st → savesOrSkips st st' → persisted st'.
Proof. unfold persisted. intros Hp [H | [Hi Hd]]; [done | congruence]. Qed.

Lemma register_saves name workingDir cmd st :
  savesOrSkips st (register name workingDir cmd st).1.
Proof.
  unfold register. destruct (_ || _); [by right|].
  destruct (instances st !! name); [by right|].
  destruct (inherited name); [by right | by left].
Qed.

Lemma startServer_saves name localPath os st :
  savesOrSkips st (startServer name localPath os st).1.
Proof.
  unfold startServer.
  destruct (instances st !! name); [|by destruct (inherited name); right].
  destruct (splitCommand _) as [cmd args].
  destruct (spawnProcess _ _ _ _ _) as [[id pm1] evs].
  destruct (_ ≫= _); [by left | by right].
Qed.

Lemma stopServer_saves name outcome st :
  savesOrSkips st (stopServer name outcome st).1.
Proof.
  unfold stopServer. destruct (instances st !! name); [|by right].
  destruct (truthyPid _); [|by right].
  destruct (findByPid _ _); [|by right].
  destruct (negb _); [by right|].
  destruct outcome; [by right | by left | by left].
Qed.

Lemma lateExit_saves name foundId st : persisted (lateExit name foundId st).
Proof. unfold lateExit. by destruct (instances st !! name). Qed.

Lemma restartServer_saves name outcome localPath os st :
  persisted st → persisted (restartServer name outcome localPath os st).1.
Proof.
  intros Hp. unfold restartServer.
  pose proof (savesOrSkips_persisted _ _ Hp (stopServer_saves name outcome st)) as H1.
  destruct (stopServer name outcome st) as [st1 [[]|message]]; [|done].
  destruct (waitUntilStopped _ _ _) as [[k|message]|]; try done.
  exact (savesOrSkips_persisted _ _ H1 (startServer_saves name localPath os st1)).
Qed.

Lemma terminateInstance_kill_saves name killError st :
  savesOrSkips st (terminateInstance_kill name killError st).
Proof.
  unfold terminateInstance_kill. destruct (instances st !! name); [|by right].
  destruct (negb _); [by right | by left].
Qed.

Lemma terminateInstance_saves name st :
  savesOrSkips st (terminateInstance name st).1.
Proof. by right. Qed.

Lemma routeTerminate_saves name st :
  savesOrSkips st (routeTerminate name st).1.
Proof. by right. Qed.

Lemma instanceAction_stop_saves name outcome st :
  persisted st → persisted (instanceAction_stop name outcome st).
Proof.
  intros Hp. unfold instanceAction_stop.
  destruct (instances st !! name); [|done].
  pose proof (savesOrSkips_persisted _ _ Hp (stopServer_saves name outcome st)) as H1.
  destruct (stopServer name outcome st) as [st1 [[]|message]]; [|done].
  by destruct (instances st1 !! name).
Qed.

Lemma tick_saves alive st : savesOrSkips st (tick alive st).
Proof.
  unfold tick. destruct (existsb _ _) eqn:Hc; [by left|].
  right. split; [|done]. by apply tick_unchanged.
Qed.

(** Registration, start, stop, restart, a termination and the periodic
    check all leave the file equal to the registry when they found it
    so. *)
Lemma lifecycle_keeps_persisted st st' :
  persisted st → step st st' →
  (∀ originalName name workingDir cmd,
     st' ≠ updateInstanceSettings originalName name workingDir cmd st) →
  persisted st'.
Proof.
  intros Hp Hstep Hnot. destruct Hstep.
  - exact (savesOrSkips_persisted _ _ Hp (register_saves _ _ _ _)).
  - exact (savesOrSkips_persisted _ _ Hp (startServer_saves _ _ _ _)).
  - exact (savesOrSkips_persisted _ _ Hp (stopServer_saves _ _ _)).
  - apply lateExit_saves.
  - by apply restartServer_saves.
  - exact (savesOrSkips_persisted _ _ Hp (terminateInstance_kill_saves _ _ _)).
  - exact (savesOrSkips_persisted _ _ Hp (terminateInstance_saves _ _)).
  - exact (savesOrSkips_persisted _ _ Hp (routeTerminate_saves _ _)).
  - by apply instanceAction_stop_saves.
  - exact (savesOrSkips_persisted _ _ Hp (tick_saves _ _)).
  - by destruct (Hnot originalName name workingDir cmd).
  - done.
Qed.

(** C7, at a failing input.  After "alpha" is registered the file
    equals the registry.  Renaming it to "beta" through
    [updateInstanceSettings] changes the registry and writes nothing:
    the file still lists "alpha" and knows no "beta". *)
Theorem updateInstanceSettings_does_not_save :
  persisted registered ∧
  instances (updateInstanceSettings "alpha" "beta" "/srv/beta" "run.sh" registered)
    = {[ "beta" := {| inst_name := "beta"; inst_workingDir := "/srv/beta";
                     inst_command := "run.sh"; inst_status := "stopped";
                     inst_pid := None |} ]} ∧
  disk (updateInstanceSettings "alpha" "beta" "/srv/beta" "run.sh" registered)
    = {[ "alpha" := {| inst_name := "alpha"; inst_workingDir := "/srv/alpha";
                      inst_command := "run.sh"; inst_status := "stopped";
                      inst_pid := None |} ]} ∧
  ¬ persisted (updateInstanceSettings "alpha" "beta" "/srv/beta" "run.sh" registered) ∧
  List.filter (fun ev => match ev with EvWriteInstances _ => true | _ => false end)
    (drop (length (trace registered))
       (trace (updateInstanceSettings "alpha" "beta" "/srv/beta" "run.sh" registered)))
    = [].
Proof.
  repeat split; try (vm_compute; reflexivity).
  unfold persisted. intros H.
  apply (f_equal (fun m : gmap string Instance => m !! "alpha")) in H.
  vm_compute in H. discriminate.
Qed.

(** ** Log file names *)

Lemma unsafe_differs (c d : ascii) :
  isUnsafeFileChar c = true → isUnsafeFileChar d = false → Ascii.eqb d c = false.
Proof.
  intros Hc Hd. destruct (Ascii.eqb_spec d c) as [->|]; [congruence | done].
Qed.

Lemma containsUnit_app (c : ascii) (a b : string) :
  containsUnit c (a +:+ b) = containsUnit c a || containsUnit c b.
Proof.
  induction a as [|d a IH]; simpl; [done|]. rewrite IH. by rewrite orb_assoc.
Qed.

Lemma safeCommand_clean (c : ascii) (cmd : string) :
  isUnsafeFileChar c = true → containsUnit c (safeCommand cmd) = false.
Proof.
  intros Hc. induction cmd as [|d cmd IH]; simpl; [done|].
  rewrite IH, orb_false_r.
  destruct (isUnsafeFileChar d) eqn:Hd; by apply unsafe_differs.
Qed.

(** X1. The name of the per-command log file is as long as the command
    plus the suffix, and holds none of the characters the replacement
    targets, so no slash or backslash: the file stays directly inside
    the log directory whatever the command is.  Sanitising twice changes
    nothing, and a command without such characters is kept as it is. *)
Theorem logFileName_has_no_separator (cmd : string) :
  String.length (safeCommand cmd) = String.length cmd ∧
  (∀ c, isUnsafeFileChar c = true → containsUnit c (logFileName cmd) = false) ∧
  safeCommand (safeCommand cmd) = safeCommand cmd ∧
  ((∀ c, isUnsafeFileChar c = true → containsUnit c cmd = false) →
   safeCommand cmd = cmd).
Proof.
  split; [|split; [|split]].
  - induction cmd as [|d cmd IH]; simpl; [done | by rewrite IH].
  - intros c Hc. unfold logFileName. rewrite containsUnit_app.
    rewrite safeCommand_clean by done.
    destruct c as [[] [] [] [] [] [] [] []];
      try (vm_compute in Hc; discriminate Hc); reflexivity.
  - induction cmd as [|d cmd IH]; simpl; [done|]. rewrite IH.
    destruct (isUnsafeFileChar d) eqn:Hd; [done | by rewrite Hd].
  - induction cmd as [|d cmd IH]; simpl; [done|]. intros Hclean.
    destruct (isUnsafeFileChar d) eqn:Hd.
    + specialize (Hclean d Hd). simpl in Hclean.
      by rewrite Ascii.eqb_refl in Hclean.
    + f_equal. apply IH. intros c Hc. specialize (Hclean c Hc).
      simpl in Hclean. by apply orb_false_elim in Hclean as [_ ?].
Qed.

Example logFileName_of_path :
  logFileName "/srv/alpha/run.sh" = "_srv_alpha_run.sh_log.txt".
Proof. reflexivity. Qed.

(** ** The supervisor's Map *)

Lemma pmSet_fresh (info : ProcInfo) (handles : list ProcInfo) :
  pi_id info ∉ pi_id <$> handles → pmSet info handles = handles ++ [info].
Proof.
  induction handles as [|h rest IH]; simpl; [done|]. intros Hfresh.
  apply not_elem_of_cons in Hfresh as [Hne Hrest].
  destruct (Nat.eqb_spec (pi_id h) (pi_id info)) as [Heq|_]; [by destruct Hne|].
  by rewrite IH.
Qed.

Lemma pmOk_fresh (m : ProcessManager) :
  pmOk m → pm_nextId m ∉ pi_id <$> pm_processes m.
Proof.
  intros (_ & _ & Hall) Hin. apply list_elem_of_fmap in Hin as (h & Heq & Hh).
  rewrite Forall_forall in Hall. destruct (Hall h Hh) as [Hlt _]. lia.
Qed.

Lemma handleOk_mono (n : nat) (h : ProcInfo) : handleOk n h → handleOk (S n) h.
Proof. intros [Hlt Hp]. split; [lia | done]. Qed.




Lemma spawnProcess_append cmd args cwd os m :
  pmOk m →
  ∃ h, pm_processes (spawnProcess cmd args cwd os m).1.2 = pm_processes m ++ [h] ∧
       pi_id h = pm_nextId m ∧ pi_command h = cmd ∧ pi_args h = args ∧
       (pi_pid h ≠ None → pi_proc h = true) ∧
       pm_nextId (spawnProcess cmd args cwd os m).1.2 = S (pm_nextId m).
Proof.
  intros Hok. pose proof (pmOk_fresh m Hok) as Hfresh.
  unfold spawnProcess.
  destruct (isCommandWithArgsDisabled _ _ _); [|destruct os as [p|message]];
    unfold appendError; simpl.
  all: rewrite pmSet_fresh by done.
  all: rewrite ?fmap_app; simpl; rewrite ?Nat.eqb_refl.
  all: eexists; split; [f_equal|]; try done.
  all: rewrite <- (list_fmap_id (pm_processes m)) at 2.
  all: apply list_fmap_ext; intros i h Hh; simpl.
  all: destruct (Nat.eqb_spec (pi_id h) (pm_nextId m)) as [Heq|]; [|done].
  all: exfalso; apply Hfresh; rewrite <- Heq.
  all: apply list_elem_of_fmap; exists h; split; [done|].
  all: by eapply list_elem_of_lookup_2.
Qed.

Lemma spawnProcess_pmOk cmd args cwd os m :
  pmOk m → pmOk (spawnProcess cmd args cwd os m).1.2.
Proof.
  intros Hok.
  destruct (spawnProcess_append cmd args cwd os m Hok)
    as (h & Happ & Hid & _ & _ & Hproc & Hnext).
  pose proof (pmOk_fresh m Hok) as Hfresh. destruct Hok as (Hpos & Hnd & Hall).
  unfold pmOk. rewrite Happ, Hnext, fmap_app. simpl. split; [lia|]. split.
  - apply NoDup_app. split; [done|]. split; [|apply NoDup_singleton].
    intros x Hx Hx'. apply list_elem_of_singleton in Hx'. subst x.
    by rewrite Hid in Hx.
  - apply Forall_app. split.
    + eapply Forall_impl; [exact Hall|]. apply handleOk_mono.
    + apply Forall_singleton. split; [|done].
      rewrite Hid. lia.
Qed.

(** X2. [spawnProcess] never throws and always leaves a handle under
    the id it returns, which is the former [nextId].  For a command the
    gate disables it does not call [spawn]: the handle has no pid, no
    child and a non-empty error list.  For any other command it calls
    [spawn] once; a returned child is recorded with its pid and no
    errors, a thrown error leaves a handle with no pid that lists the
    error's message. *)
Theorem spawnProcess_gate_and_handle
    (cmd : string) (args : list string) (cwd : string) (os : SpawnOutcome)
    (m : ProcessManager) :
  let id := (spawnProcess cmd args cwd os m).1.1 in
  let m' := (spawnProcess cmd args cwd os m).1.2 in
  let evs := (spawnProcess cmd args cwd os m).2 in
  id = pm_nextId m ∧
  pm_nextId m' = S (pm_nextId m) ∧
  pm_disabledCommands m' = pm_disabledCommands m ∧
  (isCommandWithArgsDisabled (pm_disabledCommands m) cmd args = true →
     existsb isSpawn evs = false ∧
     ∃ h, pmGet id (pm_processes m') = Some h ∧ pi_pid h = None ∧
          pi_proc h = false ∧ pi_errors h ≠ []) ∧
  (isCommandWithArgsDisabled (pm_disabledCommands m) cmd args = false →
     List.filter isSpawn evs = [EvSpawn cmd args cwd os] ∧
     match os with
     | Spawned p =>
         pmGet id (pm_processes m') =
           Some {| pi_id := id; pi_command := cmd; pi_args := args;
                   pi_proc := true; pi_pid := p; pi_errors := [] |}
     | SpawnThrew message =>
         ∃ h, pmGet id (pm_processes m') = Some h ∧ pi_pid h = None ∧
              pi_proc h = false ∧ message ∈ pi_errors h
     end).
Proof.
  unfold spawnProcess.
  destruct (isCommandWithArgsDisabled _ _ _) eqn:Hgate;
    [|destruct os as [p|message]]; unfold appendError; simpl.
  all: rewrite ?pmGet_pushError, pmGet_pmSet by done; simpl.
  all: repeat split; try done.
  - eexists. repeat split; done.
  - eexists. repeat split; [done..|]. simpl. apply list_elem_of_here.
Qed.

(** X3. When the Map is in order (distinct ids, all below [nextId]),
    [spawnProcess] adds its handle at the end and leaves every earlier
    handle exactly as it was, and the Map is in order again. *)
Theorem spawnProcess_keeps_existing_handles
    (cmd : string) (args : list string) (cwd : string) (os : SpawnOutcome)
    (m : ProcessManager) :
  pmOk m →
  pmOk (spawnProcess cmd args cwd os m).1.2 ∧
  ∃ h, pm_processes (spawnProcess cmd args cwd os m).1.2 = pm_processes m ++ [h] ∧
       pi_id h = pm_nextId m ∧ pi_command h = cmd ∧ pi_args h = args.
Proof.
  intros Hok. split; [by apply spawnProcess_pmOk|].
  destruct (spawnProcess_append cmd args cwd os m Hok) as (h & ? & ? & ? & ? & _).
  by exists h.
Qed.

Lemma running_pmOk : pmOk (pm running).
Proof.
  split; [vm_compute; lia|]. split.
  - vm_compute. apply NoDup_singleton.
  - apply Forall_singleton. split; [vm_compute; lia | done].
Qed.

Lemma spawnProcess_keeps_existing_handles_witness :
  pi_id <$> pm_processes
    (spawnProcess "java" ["-jar"; "server.jar"] "/srv/beta" (Spawned (Some 4300))
       (pm running)).1.2
  = [1%nat; 2%nat].
Proof.
  destruct (spawnProcess_keeps_existing_handles
              "java" ["-jar"; "server.jar"] "/srv/beta" (Spawned (Some 4300))
              (pm running) running_pmOk) as (_ & h & Happ & Hid & _).
  rewrite Happ, fmap_app. simpl. rewrite Hid. reflexivity.
Defined.

(** X4. [killProcess] never adds or removes a handle and never changes
    a handle's pid.  For an unknown id it does nothing at all.  For a
    handle without pid it sends no signal and appends one error to that
    handle.  For a handle with a pid it sends SIGTERM to the negated
    pid, the process group, and records an error only when the signal
    call throws. *)
Theorem killProcess_effects (processId : nat) (killError : option string)
    (m : ProcessManager) :
  let m' := (killProcess processId killError m).1 in
  let evs := (killProcess processId killError m).2 in
  (fun h => (pi_id h, pi_pid h, pi_proc h)) <$> pm_processes m'
    = (fun h => (pi_id h, pi_pid h, pi_proc h)) <$> pm_processes m ∧
  pm_nextId m' = pm_nextId m ∧
  match pmGet processId (pm_processes m) with
  | None => m' = m ∧ evs = []
  | Some info =>
      match truthyPid (pi_pid info) with
      | None =>
          evs = [EvAppendFile (pi_command info)
                   "Cannot kill process: process was never started or already exited."] ∧
          checkErrors processId m' =
            pi_errors info ++
            ["Cannot kill process: process was never started or already exited."]
      | Some p =>
          match killError with
          | None => m' = m ∧ evs = [EvSignal (- p) "SIGTERM"]
          | Some message =>
              List.filter (fun ev => match ev with EvSignal _ _ => true | _ => false end) evs
                = [EvSignal (- p) "SIGTERM"] ∧
              checkErrors processId m' =
                pi_errors info ++
                ["Error killing process " +:+ pretty p +:+ ": " +:+ message]
          end
      end
  end.
Proof.
  assert (∀ id msg (l : list ProcInfo),
            (fun h => (pi_id h, pi_pid h, pi_proc h)) <$>
              ((fun p => if (pi_id p =? id)%nat then pushError msg p else p) <$> l)
            = (fun h => (pi_id h, pi_pid h, pi_proc h)) <$> l) as Hsame.
  { intros id msg l. rewrite <- list_fmap_compose. apply list_fmap_ext.
    intros i h _. simpl. by destruct (pi_id h =? id)%nat. }
  unfold killProcess, checkErrors.
  destruct (pmGet processId (pm_processes m)) as [info|] eqn:Hget; [|done].
  destruct (truthyPid (pi_pid info)) as [p|]; [destruct killError as [message|]|];
    unfold appendError; simpl; rewrite ?Hsame, ?pmGet_pushError, ?Hget; done.
Qed.




Lemma startServer_pmOk name localPath os st :
  pmOk (pm st) → pmOk (pm (startServer name localPath os st).1).
Proof.
  intros Hok. unfold startServer.
  destruct (instances st !! name) as [instance|]; [|by destruct (inherited name)].
  destruct (splitCommand _) as [cmd args].
  pose proof (spawnProcess_pmOk (default cmd localPath) args
                (inst_workingDir instance) os (pm st) Hok) as H.
  destruct (spawnProcess _ _ _ _ _) as [[id pm1] evs]. simpl in H.
  by destruct (_ ≫= _).
Qed.





(** ** Waiting for a stop, for any timeout *)

(** X6. [waitUntilStopped(name, timeoutMs)] settles for every timeout
    and every way the registry may evolve.  It resolves at the first
    check that finds no property of that name or an instance whose
    status is "stopped", provided that check is the first one or
    happens less than [timeoutMs] after the call; otherwise it rejects
    with the "did not stop in time" error at the first check whose
    successor would fall at or after the timeout.  A timeout of at most
    250 ms, zero and negative ones included, allows exactly one check.
    For a name that the object inherits and the registry never holds,
    the wait always times out. *)
Theorem waitUntilStopped_settles_at_first_stop
    (name : string) (timeoutMs : Z) (view : nat → gmap string Instance) :
  (∃ r, waitUntilStopped name timeoutMs view = Some r ∧
     match r with
     | Ok j =>
         absentOrStopped name (view j) ∧
         (∀ i, (i < j)%nat → ¬ absentOrStopped name (view i)) ∧
         (j = 0%nat ∨ 250 * Z.of_nat j < timeoutMs)
     | Throw message =>
         message = "Instance " +:+ name +:+ " did not stop in time." ∧
         ∃ j, (∀ i, (i ≤ j)%nat → ¬ absentOrStopped name (view i)) ∧
              timeoutMs ≤ 250 * Z.of_nat (j + 1) ∧
              (j = 0%nat ∨ 250 * Z.of_nat j < timeoutMs)
     end) ∧
  (timeoutMs ≤ 250 →
     (absentOrStopped name (view 0%nat) →
        waitUntilStopped name timeoutMs view = Some (Ok 0%nat)) ∧
     (¬ absentOrStopped name (view 0%nat) →
        waitUntilStopped name timeoutMs view =
          Some (Throw ("Instance " +:+ name +:+ " did not stop in time.")))) ∧
  (name ∈ objectPrototypeNames → (∀ i, view i !! name = None) →
     waitUntilStopped name timeoutMs view =
       Some (Throw ("Instance " +:+ name +:+ " did not stop in time."))).
Proof.
  assert (∃ r, waitUntilStopped name timeoutMs view = Some r ∧
     match r with
     | Ok j =>
         absentOrStopped name (view j) ∧
         (∀ i, (i < j)%nat → ¬ absentOrStopped name (view i)) ∧
         (j = 0%nat ∨ 250 * Z.of_nat j < timeoutMs)
     | Throw message =>
         message = "Instance " +:+ name +:+ " did not stop in time." ∧
         ∃ j, (∀ i, (i ≤ j)%nat → ¬ absentOrStopped name (view i)) ∧
              timeoutMs ≤ 250 * Z.of_nat (j + 1) ∧
              (j = 0%nat ∨ 250 * Z.of_nat j < timeoutMs)
     end) as Hmain.
  { destruct (waitCheck_settles (S (Z.to_nat (timeoutMs / pollInterval)))
                name timeoutMs view 0 0) as [r Hr]; [lia | |].
    { unfold pollInterval. destruct (Z.le_gt_cases timeoutMs 0) as [Hle|Hgt]; [lia|].
      pose proof (Z.mul_succ_div_gt timeoutMs 250 ltac:(lia)) as Hdiv.
      assert (0 ≤ timeoutMs / 250) by (apply Z.div_pos; lia).
      rewrite Nat2Z.inj_succ, Z2Nat.id by done. lia. }
    exists r. split; [exact Hr|]. apply waitCheck_result in Hr.
    unfold pollInterval in Hr.
    destruct r as [j|message].
    + destruct Hr as (_ & Hj & Hbefore & Hbound).
      split; [by apply stoppedOrGone_true|].
      split; [intros i Hi; apply stoppedOrGone_false, Hbefore; lia|].
      destruct Hbound as [-> | Hb]; [by left | right].
      by rewrite Nat.sub_0_r in Hb.
    + destruct Hr as (Hm & j & _ & Hnone & Hover & Hbound).
      split; [done|]. exists j.
      split; [intros i Hi; apply stoppedOrGone_false, Hnone; lia|].
      rewrite Nat.sub_0_r in Hover, Hbound. split; [lia|].
      destruct Hbound as [-> | Hb]; [by left | by right]. }
  split; [exact Hmain|]. split.
  - intros Hshort. unfold waitUntilStopped. cbn [waitCheck]. split.
    + intros Hs. apply stoppedOrGone_true in Hs. by rewrite Hs.
    + intros Hs. apply stoppedOrGone_false in Hs. rewrite Hs.
      destruct (Z.leb_spec timeoutMs (0 + pollInterval)) as [_|Hgt]; [done|].
      unfold pollInterval in Hgt. lia.
  - intros Hin Hnone. destruct Hmain as (r & Hr & Hspec). rewrite Hr.
    destruct r as [j|message].
    + destruct Hspec as ([[_ Hout] | (inst & Hl & _)] & _); [done|].
      by rewrite Hnone in Hl.
    + destruct Hspec as (-> & _). done.
Qed.

(** ** The Log Buffer across appends *)

Lemma lastN_app_lastN {A : Type} (c : nat) (a b : list A) :
  lastN c (lastN c a ++ b) = lastN c (a ++ b).
Proof.
  unfold lastN. rewrite !length_app, length_drop.
  rewrite !drop_app, drop_drop, length_drop.
  f_equal; f_equal; lia.
Qed.

(** X7. Appending two chunks one after the other leaves the same
    buffer as keeping the last 400 of the old lines followed by the
    kept lines of both chunks: trimming after the first append loses
    nothing that the second append would still have shown. *)
Theorem appendLines_twice (buf : list string) (text1 text2 : string) :
  appendLines (appendLines buf text1) text2
  = lastN 400 (buf ++ keptLines text1 ++ keptLines text2).
Proof.
  rewrite !appendLines_drop. fold (lastN logCapacity (buf ++ keptLines text1)).
  fold (lastN logCapacity (lastN logCapacity (buf ++ keptLines text1) ++ keptLines text2)).
  rewrite lastN_app_lastN. by rewrite <- app_assoc.
Qed.

Lemma containsUnit_snoc (c d : ascii) (s : string) :
  containsUnit c (s +:+ String d EmptyString) = containsUnit c s || Ascii.eqb d c.
Proof. rewrite containsUnit_app. simpl. by rewrite orb_false_r. Qed.

Lemma splitLines_no_LF (n : nat) :
  ∀ (s cur : string), (String.length s < n)%nat →
    containsUnit LF cur = false →
    Forall (fun line => containsUnit LF line = false) (splitLines cur s).
Proof.
  induction n as [|n IH]; intros s cur Hlen Hcur; [lia|].
  destruct s as [|c s']; simpl; [by apply Forall_singleton|].
  simpl in Hlen.
  destruct (Ascii.eqb c LF) eqn:Hc.
  { apply Forall_cons. split; [done|]. apply IH; [lia | done]. }
  assert (containsUnit LF (cur +:+ String c EmptyString) = false) as Hsnoc
    by (by rewrite containsUnit_snoc, Hcur, Hc).
  destruct s' as [|d s'']; [by apply Forall_singleton|].
  destruct (Ascii.eqb c CR && Ascii.eqb d LF).
  - apply Forall_cons. split; [done|]. apply IH; [simpl in Hlen; lia | done].
  - apply IH; [lia | done].
Qed.

Lemma keptLines_ok (text : string) : Forall lineOk (keptLines text).
Proof.
  unfold keptLines, lineOk.
  pose proof (splitLines_no_LF (S (String.length text)) text EmptyString
                ltac:(lia) eq_refl) as Hlf.
  induction (splitLines EmptyString text) as [|line rest IH]; simpl; [done|].
  apply Forall_cons in Hlf as [Hline Hrest].
  case_bool_decide as Hblank; simpl; [by apply IH|].
  apply Forall_cons. split; [|by apply IH]. split; [|done].
  destruct (allWhiteSpace line) eqn:Hw; [|done].
  by apply trim_empty_iff in Hw.
Qed.

Lemma appendLines_ok (buf : list string) (text : string) :
  Forall lineOk buf →
  (length (appendLines buf text) ≤ 400)%nat ∧ Forall lineOk (appendLines buf text).
Proof.
  intros Hbuf. split; [apply appendLines_length|].
  rewrite appendLines_drop. apply Forall_drop, Forall_app.
  split; [done | apply keptLines_ok].
Qed.

Lemma step_instanceLogs st st' :
  step st st' →
  instanceLogs st' = instanceLogs st ∨
  ∃ name text, st' = appendInstanceLog name text st.
Proof.
  intros Hstep. destruct Hstep; try (by left).
  - left. unfold register. destruct (_ || _); [done|].
    destruct (instances st !! name); [done|]. by destruct (inherited name).
  - left. unfold startServer.
    destruct (instances st !! name); [|by destruct (inherited name)].
    destruct (splitCommand _). destruct (spawnProcess _ _ _ _ _) as [[? ?] ?].
    by destruct (_ ≫= _).
  - left. unfold stopServer. destruct (instances st !! name); [|done].
    destruct (truthyPid _); [|done]. destruct (findByPid _ _); [|done].
    destruct (negb _); [done|]. by destruct outcome.
  - left. unfold lateExit. by destruct (instances st !! name).
  - left. unfold restartServer, stopServer.
    destruct (instances st !! name) as [instance|]; [|done].
    destruct (truthyPid _); [|done]. destruct (findByPid _ _); [|done].
    destruct (negb _); [done|].
    destruct outcome; [done| |].
    all: destruct (waitUntilStopped _ _ _) as [[k|message]|]; try done.
    all: unfold startServer; simpl.
    all: destruct (_ !! name); [|by destruct (inherited name)].
    all: destruct (splitCommand _); destruct (spawnProcess _ _ _ _ _) as [[? ?] ?].
    all: by destruct (_ ≫= _).
  - left. unfold terminateInstance_kill. destruct (instances st !! name); [|done].
    destruct (negb _); [done|]. destruct (findByPid _ _); [|done].
    by destruct (killProcess _ _ _).
  - left. unfold instanceAction_stop, stopServer.
    destruct (instances st !! name) as [instance|]; [|done].
    destruct (truthyPid _); [|done]. destruct (findByPid _ _); [|done].
    destruct (negb _); [done|].
    destruct outcome; [done| |]; simpl; by rewrite lookup_insert_eq.
  - left. unfold tick. by destruct (existsb _ _).
  - left. unfold updateInstanceSettings. by destruct (instances st !! originalName).
  - right. by exists name, text.
Qed.

(** X8. In every state the supervisor can reach, each Log Buffer holds
    at most 400 lines, none of them blank and none containing a line
    feed. *)
Theorem reachable_logsOk (st : State) : reachable st → logsOk st.
Proof.
  induction 1 as [loaded rules alive | st st' _ IH Hstep].
  - unfold logsOk. simpl. apply map_Forall_empty.
  - destruct (step_instanceLogs st st' Hstep) as [Heq | (name & text & ->)].
    + unfold logsOk. by rewrite Heq.
    + unfold logsOk, appendInstanceLog. simpl.
      apply map_Forall_insert_2; [|done].
      apply appendLines_ok.
      destruct (instanceLogs st !! name) as [buf|] eqn:Hbuf; simpl; [|done].
      by destruct (IH name buf Hbuf).
Qed.

Lemma reachable_logsOk_witness : logsOk logged.
Proof.
  apply reachable_logsOk.
  eapply reachable_step; [|apply step_log].
  eapply reachable_step; [|apply step_start].
  eapply reachable_step; [|apply step_register].
  apply reachable_startup.
Defined.

(** ** Reading the Log Buffer back *)

Lemma append_empty_r (s : string) : s +:+ EmptyString = s.
Proof.
  induction s as [|c s IH]; [done|].
  change (String c s +:+ EmptyString) with (String c (s +:+ EmptyString)).
  by f_equal.
Qed.

Lemma append_snoc (cur : string) (c : ascii) (x : string) :
  (cur +:+ String c EmptyString) +:+ x = cur +:+ String c x.
Proof.
  induction cur as [|d cur IH]; [done|].
  change ((String d cur +:+ String c EmptyString) +:+ x)
    with (String d ((cur +:+ String c EmptyString) +:+ x)).
  change (String d cur +:+ String c x) with (String d (cur +:+ String c x)).
  by f_equal.
Qed.

Lemma splitLines_whole (x cur : string) :
  containsUnit LF x = false → splitLines cur x = [cur +:+ x].
Proof.
  revert cur. induction x as [|c x IH]; intros cur Hlf; simpl.
  - by rewrite append_empty_r.
  - simpl in Hlf. apply orb_false_elim in Hlf as [Hc Hx]. rewrite Hc.
    destruct x as [|d x']; [done|].
    simpl in Hx. apply orb_false_elim in Hx as [Hd Hx'].
    rewrite Hd, andb_false_r. rewrite IH; [by rewrite append_snoc|].
    simpl. by rewrite Hd, Hx'.
Qed.

Lemma splitLines_at_LF (cur s : string) :
  splitLines cur (String LF s) = cur :: splitLines EmptyString s.
Proof. reflexivity. Qed.

Lemma splitLines_step (cur : string) (c d : ascii) (s : string) :
  Ascii.eqb c LF = false → Ascii.eqb c CR && Ascii.eqb d LF = false →
  splitLines cur (String c (String d s))
  = splitLines (cur +:+ String c EmptyString) (String d s).
Proof. intros Hc Hcd. simpl. by rewrite Hc, Hcd. Qed.

Lemma splitLines_first (x cur rest : string) :
  containsUnit LF x = false → endsWithCR x = false →
  splitLines cur (x +:+ String LF rest) = (cur +:+ x) :: splitLines EmptyString rest.
Proof.
  revert cur. induction x as [|c x IH]; intros cur Hlf Hcr.
  - change (EmptyString +:+ String LF rest) with (String LF rest).
    by rewrite splitLines_at_LF, append_empty_r.
  - simpl in Hlf. apply orb_false_elim in Hlf as [Hc Hx].
    destruct x as [|d x'].
    + change (String c EmptyString +:+ String LF rest) with (String c (String LF rest)).
      simpl in Hcr.
      rewrite splitLines_step by (by rewrite ?Hcr).
      by rewrite splitLines_at_LF.
    + change (String c (String d x') +:+ String LF rest)
        with (String c (String d (x' +:+ String LF rest))).
      pose proof Hx as Hx0. simpl in Hx0. apply orb_false_elim in Hx0 as [Hd _].
      rewrite splitLines_step by (by rewrite ?Hd, ?andb_false_r).
      change (String d (x' +:+ String LF rest)) with (String d x' +:+ String LF rest).
      rewrite IH; [by rewrite append_snoc | done | done].
Qed.

(** X9. The text that a subscriber receives for an instance, the
    buffer's lines joined by LF, splits back into exactly the buffer's
    lines, provided the buffer is not empty and none of its lines
    contains LF or ends in CR. *)
Theorem logText_splits_back (name : string) (st : State) (buf : list string) :
  instanceLogs st !! name = Some buf →
  buf ≠ [] →
  Forall (fun line => containsUnit LF line = false ∧ endsWithCR line = false) buf →
  splitLines EmptyString (logText name st) = buf.
Proof.
  intros Hbuf Hne Hall. unfold logText. rewrite Hbuf. simpl.
  clear Hbuf. induction buf as [|x rest IH]; [done|].
  apply Forall_cons in Hall as [[Hlf Hcr] Hrest].
  destruct rest as [|y rest'].
  - simpl. by rewrite splitLines_whole.
  - change (join (String LF EmptyString) (x :: y :: rest'))
      with (x +:+ String LF (join (String LF EmptyString) (y :: rest'))).
    rewrite splitLines_first by done. simpl String.append.
    f_equal. by apply IH.
Qed.

Lemma logText_splits_back_witness :
  splitLines EmptyString
    (logText "alpha" (appendInstanceLog "alpha" ("Starting" +:+ String LF "Done") running))
  = ["Starting"; "Done"].
Proof.
  apply (logText_splits_back "alpha"
           (appendInstanceLog "alpha" ("Starting" +:+ String LF "Done") running)
           ["Starting"; "Done"]).
  - reflexivity.
  - discriminate.
  - repeat constructor.
Defined.

(** An empty buffer is sent as the empty text, which splits into one
    empty line, and a line that was stored with a trailing CR loses it. *)
Example logText_edge_cases :
  splitLines EmptyString (join (String LF EmptyString) []) = [EmptyString] ∧
  splitLines EmptyString
    (join (String LF EmptyString) ["a" +:+ String CR EmptyString; "b"]) = ["a"; "b"].
Proof. split; reflexivity. Qed.

(** ** Statuses *)








(** ** More on the periodic check *)

Lemma tickInstance_cases (alive : Z → bool) (inst : Instance) :
  tickInstance alive inst =
    match inst_pid inst with
    | Some p =>
        if negb (p =? 0) then
          if alive p then
            if bool_decide (inst_status inst = "running") then inst
            else withRuntime inst "running" (Some p)
          else
            if bool_decide (inst_status inst = "running")
            then withRuntime inst "stopped" None else inst
        else withRuntime inst "stopped" None
    | None => withRuntime inst "stopped" None
    end.
Proof.
  unfold tickInstance, tickChanges, isRunningNow, jsAnd, pidVal.
  destruct (inst_pid inst) as [p|]; [|done].
  change (default 0 (Some p)) with p. unfold truthy.
  destruct (negb (p =? 0)) eqn:Hz; simpl; rewrite ?Hz; simpl; [|done].
  destruct (alive p), (bool_decide (inst_status inst = "running")); done.
Qed.

(** X11. One run of the periodic check keeps the set of instances and
    their name, working directory and command.  Afterwards an instance
    is marked "running" exactly when it had a pid other than 0 and the
    probe of that pid succeeded, and it then still has that pid.  A
    second run with the same probe results changes no entry. *)
Theorem tick_marks_running_iff_alive (alive : Z → bool) (st : State) :
  (∀ name, instances (tick alive st) !! name
           = tickInstance alive <$> (instances st !! name)) ∧
  (∀ inst,
     let inst' := tickInstance alive inst in
     inst_name inst' = inst_name inst ∧
     inst_workingDir inst' = inst_workingDir inst ∧
     inst_command inst' = inst_command inst ∧
     (inst_status inst' = "running" ↔
      ∃ p, inst_pid inst = Some p ∧ p ≠ 0 ∧ alive p = true) ∧
     (inst_status inst' = "running" → inst_pid inst' = inst_pid inst) ∧
     (inst_status inst' ≠ "running" →
      inst_pid inst' = None ∨ inst' = inst)) ∧
  instances (tick alive (tick alive st)) = instances (tick alive st).
Proof.
  split; [|split].
  - intros name. by rewrite tick_instances, lookup_fmap.
  - intros inst inst'. subst inst'. rewrite tickInstance_cases.
    destruct (inst_pid inst) as [p|] eqn:Hp.
    + destruct (Z.eqb_spec p 0) as [Hz|Hz]; simpl.
      * repeat split; try done; [|by left].
        intros (q & [= <-] & Hq & _). done.
      * destruct (alive p) eqn:Ha; case_bool_decide as Hs; simpl.
        all: repeat split; try done; eauto.
        all: try (intros (q & [= <-] & _ & Hq); congruence).
        all: try (intros _; by right).
        all: try (intros _; by left).
    + simpl. repeat split; try done; [|by left].
      intros (q & Hq & _). done.
  - rewrite !tick_instances. rewrite <- map_fmap_compose.
    apply map_fmap_ext. intros name inst _. simpl.
    rewrite (tickInstance_cases alive inst).
    destruct (inst_pid inst) as [p|] eqn:Hp; [|done].
    destruct (negb (p =? 0)) eqn:Hz; [|done].
    destruct (alive p) eqn:Ha; case_bool_decide as Hs.
    all: rewrite tickInstance_cases; simpl; rewrite ?Hp, ?Hz, ?Ha; simpl.
    all: try done.
    all: by rewrite ?bool_decide_true, ?bool_decide_false by done.
Qed.

(** X12. As soon as one instance has a null pid (or the pid 0), a run
    of the periodic check counts a change: it rewrites the registry
    file and broadcasts [instancesStatus], also when no status and no
    pid differs afterwards. *)
Theorem tick_saves_when_some_pid_is_null
    (alive : Z → bool) (st : State) (name : string) (inst : Instance) :
  instances st !! name = Some inst →
  pidTruthy (inst_pid inst) = false →
  trace (tick alive st) =
    trace st ++ [EvWriteInstances (instances (tick alive st));
                 EvEmitRegistry "instancesStatus" (instances (tick alive st))].
Proof.
  intros Hl Hpid. unfold tick.
  assert (existsb (fun kv => tickChanges alive kv.2) (map_to_list (instances st)) = true)
    as ->.
  { apply existsb_exists. exists (name, inst). split.
    - apply list_elem_of_In. by apply elem_of_map_to_list.
    - simpl. unfold tickChanges, isRunningNow, jsAnd. fold (pidTruthy (inst_pid inst)).
      rewrite Hpid. by destruct (inst_pid inst). }
  simpl. by rewrite <- app_assoc.
Qed.

Lemma tick_saves_when_some_pid_is_null_witness :
  instances (tick (fun _ => false) registered) = instances registered ∧
  trace (tick (fun _ => false) registered) =
    trace registered ++
      [EvWriteInstances (instances (tick (fun _ => false) registered));
       EvEmitRegistry "instancesStatus" (instances (tick (fun _ => false) registered))].
Proof.
  split; [vm_compute; reflexivity|].
  apply (tick_saves_when_some_pid_is_null (fun _ => false) registered "alpha"
           {| inst_name := "alpha"; inst_workingDir := "/srv/alpha";
              inst_command := "run.sh"; inst_status := "stopped";
              inst_pid := None |}); reflexivity.
Defined.

(** ** Registration *)

(** X13. [POST /instances] answers "Missing fields" when the name, the
    working directory or the command is empty, and otherwise "Instance
    already exists" when the registry holds the name or the object
    inherits it; in both cases nothing changes, the existing entry
    included.  In every other case the new entry is stored as stopped
    with a null pid, every other entry is kept, and the file is
    rewritten to equal the registry. *)
Theorem register_outcomes (name workingDir cmd : string) (st : State) :
  match (register name workingDir cmd st).2 with
  | Throw message =>
      (register name workingDir cmd st).1 = st ∧
      ((message = "Missing fields" ∧
        (name = EmptyString ∨ workingDir = EmptyString ∨ cmd = EmptyString)) ∨
       (message = "Instance already exists" ∧
        name ≠ EmptyString ∧ workingDir ≠ EmptyString ∧ cmd ≠ EmptyString ∧
        (is_Some (instances st !! name) ∨ name ∈ objectPrototypeNames)))
  | Ok _ =>
      name ≠ EmptyString ∧ workingDir ≠ EmptyString ∧ cmd ≠ EmptyString ∧
      instances st !! name = None ∧ (name ∉ objectPrototypeNames) ∧
      instances (register name workingDir cmd st).1 !! name =
        Some {| inst_name := name; inst_workingDir := workingDir;
                inst_command := cmd; inst_status := "stopped"; inst_pid := None |} ∧
      (∀ other, other ≠ name →
         instances (register name workingDir cmd st).1 !! other = instances st !! other) ∧
      disk (register name workingDir cmd st).1 = instances (register name workingDir cmd st).1 ∧
      trace (register name workingDir cmd st).1 =
        trace st ++ [EvWriteInstances (instances (register name workingDir cmd st).1)]
  end.
Proof.
  unfold register.
  destruct (bool_decide (name = EmptyString)) eqn:Hn;
    [apply bool_decide_eq_true in Hn; simpl; split; [done|]; left; auto|].
  destruct (bool_decide (workingDir = EmptyString)) eqn:Hw;
    [apply bool_decide_eq_true in Hw; simpl; split; [done|]; left; auto|].
  destruct (bool_decide (cmd = EmptyString)) eqn:Hc;
    [apply bool_decide_eq_true in Hc; simpl; split; [done|]; left; auto|].
  apply bool_decide_eq_false in Hn, Hw, Hc. simpl.
  destruct (instances st !! name) as [old|] eqn:Hl; simpl.
  - split; [done|]. right. repeat split; try done. left. by eexists.
  - unfold inherited. case_bool_decide as Hin; simpl.
    + split; [done|]. right. repeat split; try done. by right.
    + repeat split; try done.
      * apply lookup_insert_eq.
      * intros other Hne. by apply lookup_insert_ne.
Qed.

Example register_constructor :
  register "constructor" "/srv/c" "run.sh" booted
  = (booted, Throw "Instance already exists").
Proof. vm_compute. reflexivity. Qed.

(** ** Start and stop together *)

(** X14. [startServer] resolves only with a pid other than 0 that
    [spawn] returned for a command the gate let through; the entry then
    has the status "running" and that pid, its other fields are kept,
    and the file equals the registry.  When it rejects, the registry and
    the file are as before: with "Instance not found" for a name that
    the registry does not hold and the object does not inherit, with a
    TypeError for one that it inherits, with "Failed to start process"
    for a registered instance.  In both cases every other entry and
    every Log Buffer is left alone. *)
Theorem startServer_outcomes
    (name : string) (localPath : option string) (os : SpawnOutcome) (st : State) :
  (∀ other, other ≠ name →
     instances (startServer name localPath os st).1 !! other = instances st !! other) ∧
  instanceLogs (startServer name localPath os st).1 = instanceLogs st ∧
  match (startServer name localPath os st).2 with
  | Ok p =>
      p ≠ 0 ∧ os = Spawned (Some p) ∧
      ∃ inst, instances st !! name = Some inst ∧
        isCommandWithArgsDisabled (pm_disabledCommands (pm st))
          (default (splitCommand (inst_command inst)).1 localPath)
          (splitCommand (inst_command inst)).2 = false ∧
        (∃ inst', instances (startServer name localPath os st).1 !! name = Some inst' ∧
           inst_status inst' = "running" ∧ inst_pid inst' = Some p ∧
           inst_name inst' = inst_name inst ∧
           inst_workingDir inst' = inst_workingDir inst ∧
           inst_command inst' = inst_command inst) ∧
        disk (startServer name localPath os st).1
          = instances (startServer name localPath os st).1
  | Throw message =>
      instances (startServer name localPath os st).1 = instances st ∧
      disk (startServer name localPath os st).1 = disk st ∧
      ((message = "Instance not found" ∧
        instances st !! name = None ∧ name ∉ objectPrototypeNames) ∨
       (message = "TypeError" ∧
        instances st !! name = None ∧ name ∈ objectPrototypeNames) ∨
       (message = "Failed to start process for " +:+ name ∧
        is_Some (instances st !! name)))
  end.
Proof.
  unfold startServer.
  destruct (instances st !! name) as [inst|] eqn:Hl.
  2: { unfold inherited. case_bool_decide as Hin; simpl; auto 10. }
  assert (is_Some (Some inst)) as Hsome by (by eexists).
  destruct (splitCommand (inst_command inst)) as [cmd args] eqn:Hsplit.
  unfold spawnProcess.
  destruct (isCommandWithArgsDisabled _ _ _) eqn:Hgate;
    [|destruct os as [[q|]|message]]; unfold appendError; cbn [pm_processes].
  1, 4: rewrite pmGet_pushError.
  all: (rewrite pmGet_pmSet by done); simpl; auto 10.
  unfold truthyPid, pidTruthy, pidVal, truthy.
  destruct (Z.eqb_spec q 0) as [Hz|Hz]; simpl; auto 10.
  split; [intros other Hne; by apply lookup_insert_ne|].
  split; [done|]. split; [done|]. split; [done|].
  exists inst. split; [done|]. split; [by rewrite Hsplit|].
  split; [|done].
  exists (withRuntime inst "running" (Some q)). split; [apply lookup_insert_eq | done].
Qed.

Example startServer_constructor :
  startServer "constructor" None (Spawned (Some 4242)) booted = (booted, Throw "TypeError").
Proof. vm_compute. reflexivity. Qed.

Lemma find_tracked (p : Z) (handles : list ProcInfo) (h : ProcInfo) :
  In h handles → pi_pid h = Some p →
  ∃ found, findByPid (Some p) handles = Some found ∧
           In found handles ∧ pi_pid found = Some p.
Proof.
  intros Hin Hp. unfold findByPid.
  destruct (List.find _ handles) as [found|] eqn:Hfind.
  - apply List.find_some in Hfind as [Hf Hpid].
    apply bool_decide_eq_true in Hpid. by exists found.
  - pose proof (List.find_none _ _ Hfind h Hin) as Hno. simpl in Hno.
    rewrite bool_decide_true in Hno by done. done.
Qed.

(** X15. Start followed by stop.  In a state whose handles are in
    order, starting a registered instance with a command the gate lets
    through, the OS answering a pid [p] other than 0, resolves with [p]
    and marks the instance running.  A stop that follows, whether the
    child exits in time or is killed, resolves and leaves the entry
    stopped with a null pid, every other entry as it was before the
    start, and the file equal to the registry. *)
Theorem start_then_stop
    (name : string) (localPath : option string) (p : Z) (st : State)
    (inst : Instance) (outcome : StopOutcome) :
  pmOk (pm st) →
  instances st !! name = Some inst →
  isCommandWithArgsDisabled (pm_disabledCommands (pm st))
    (default (splitCommand (inst_command inst)).1 localPath)
    (splitCommand (inst_command inst)).2 = false →
  p ≠ 0 →
  outcome = ExitsInGrace ∨ outcome = GraceElapses →
  let st1 := (startServer name localPath (Spawned (Some p)) st).1 in
  let st2 := (stopServer name outcome st1).1 in
  (startServer name localPath (Spawned (Some p)) st).2 = Ok p ∧
  instances st1 = <[name := withRuntime inst "running" (Some p)]> (instances st) ∧
  (stopServer name outcome st1).2 = Ok tt ∧
  instances st2 = <[name := withRuntime inst "stopped" None]> (instances st) ∧
  disk st2 = instances st2.
Proof.
  intros Hok Hl Hgate Hp Hout st1 st2.
  pose proof (startServer_pmOk name localPath (Spawned (Some p)) st Hok) as Hok1.
  fold st1 in Hok1.
  assert (pidTruthy (Some p) = true) as Htruthy.
  { unfold pidTruthy, pidVal, truthy. by destruct (Z.eqb_spec p 0). }
  assert ((startServer name localPath (Spawned (Some p)) st).2 = Ok p ∧
          instances st1 = <[name := withRuntime inst "running" (Some p)]> (instances st) ∧
          ∃ h, In h (pm_processes (pm st1)) ∧ pi_pid h = Some p) as (Hres & Hreg & h & Hin & Hh).
  { subst st1. unfold startServer. rewrite Hl.
    destruct (splitCommand (inst_command inst)) as [cmd args]. simpl in Hgate.
    unfold spawnProcess. rewrite Hgate. simpl.
    rewrite pmGet_pmSet by done. simpl. unfold truthyPid. rewrite Htruthy. simpl.
    split; [done|]. split; [done|].
    exists {| pi_id := pm_nextId (pm st); pi_command := default cmd localPath;
              pi_args := args; pi_proc := true; pi_pid := Some p; pi_errors := [] |}.
    split; [|done].
    eapply (List.find_some (fun q => (pi_id q =? pm_nextId (pm st))%nat)).
    by apply pmGet_pmSet. }
  destruct (find_tracked p _ h Hin Hh) as (found & Hfind & Hfin & Hfp).
  assert (pi_proc found = true) as Hproc.
  { destruct Hok1 as (_ & _ & Hall). rewrite Forall_forall in Hall.
    apply list_elem_of_In in Hfin. destruct (Hall found Hfin) as [_ Hpr].
    apply Hpr. by rewrite Hfp. }
  assert (instances st1 !! name = Some (withRuntime inst "running" (Some p))) as Hl1
    by (rewrite Hreg; apply lookup_insert_eq).
  subst st2.
  rewrite (stopServer_tracked name st1 (withRuntime inst "running" (Some p)) p found outcome)
    by (try done; simpl; unfold truthyPid; by rewrite Htruthy).
  split; [done|]. split; [done|].
  destruct Hout as [-> | ->]; simpl; rewrite Hreg, insert_insert_eq; done.
Qed.

Lemma start_then_stop_witness :
  instances
    (stopServer "alpha" GraceElapses
       (startServer "alpha" None (Spawned (Some 4242)) registered).1).1
  = instances registered.
Proof.
  pose proof (start_then_stop "alpha" None 4242 registered
                {| inst_name := "alpha"; inst_workingDir := "/srv/alpha";
                   inst_command := "run.sh"; inst_status := "stopped";
                   inst_pid := None |} GraceElapses) as H.
  destruct H as (_ & _ & _ & Hreg & _).
  - split; [vm_compute; lia|]. split; [apply NoDup_nil_2 | apply Forall_nil_2].
  - reflexivity.
  - reflexivity.
  - lia.
  - by right.
  - rewrite Hreg. vm_compute. reflexivity.
Defined.

(** X16. Whenever [stopServer] rejects, it has changed nothing and
    produced no effect.  It rejects with "Instance not running" for an
    unknown instance or one whose pid is null or 0, with "Process info
    not found" when no handle has that pid or the handle holds no child,
    and with "Failed to send stop command" when the write to stdin
    throws.  When it resolves, the entry is stopped with a null pid. *)
Theorem stopServer_outcomes (name : string) (outcome : StopOutcome) (st : State) :
  match (stopServer name outcome st).2 with
  | Throw message =>
      (stopServer name outcome st).1 = st ∧
      ((message = "Instance not running" ∧
        (instances st !! name ≫= (fun inst => truthyPid (inst_pid inst))) = None) ∨
       (message = "Process info not found" ∧
        ∃ inst, instances st !! name = Some inst ∧
          match findByPid (inst_pid inst) (pm_processes (pm st)) with
          | Some found => pi_proc found = false
          | None => True
          end) ∨
       (∃ cause, outcome = StdinWriteThrows cause ∧
          message = "Failed to send stop command: " +:+ cause))
  | Ok _ =>
      ∃ inst, instances st !! name = Some inst ∧
        instances (stopServer name outcome st).1
          = <[name := withRuntime inst "stopped" None]> (instances st)
  end.
Proof.
  unfold stopServer.
  destruct (instances st !! name) as [inst|] eqn:Hl; simpl; [|auto].
  destruct (truthyPid (inst_pid inst)) as [p|] eqn:Hp; simpl; [|auto].
  destruct (findByPid _ _) as [found|] eqn:Hf; simpl.
  - destruct (pi_proc found) eqn:Hproc; simpl.
    + destruct outcome as [cause| |]; simpl.
      * split; [done|]. right. right. by exists cause.
      * by exists inst.
      * by exists inst.
    + split; [done|]. right. left. split; [done|]. exists inst. by rewrite Hf.
  - split; [done|]. right. left. split; [done|]. exists inst. by rewrite Hf.
Qed.

(** X17. A restart whose stop is rejected, as for an instance that is
    not running, is rejected with the same error, leaves the state
    untouched and starts nothing. *)
Theorem restartServer_needs_running_instance
    (name : string) (outcome : StopOutcome) (localPath : option string)
    (os : SpawnOutcome) (st : State) (message : string) :
  (stopServer name outcome st).2 = Throw message →
  restartServer name outcome localPath os st = (st, Throw message).
Proof.
  intros Hstop. unfold restartServer.
  assert ((stopServer name outcome st).1 = st) as Hst.
  { revert Hstop. unfold stopServer.
    destruct (instances st !! name) as [inst|]; [|done].
    destruct (truthyPid _); [|done]. destruct (findByPid _ _); [|done].
    destruct (negb _); [done|]. by destruct outcome. }
  destruct (stopServer name outcome st) as [st1 [[]|m]]; simpl in *; [done|].
  congruence.
Qed.

Lemma restartServer_needs_running_instance_witness :
  restartServer "alpha" ExitsInGrace None (Spawned (Some 4242)) registered
  = (registered, Throw "Instance not running").
Proof.
  apply restartServer_needs_running_instance. reflexivity.
Defined.

(** ** Settings updates *)

(** X18. For an original name that the registry holds or that the
    object does not inherit, and a new name other than "__proto__",
    [updateInstanceSettings] touches neither the registry file, nor the
    handles, nor any Log Buffer.  For an unknown original name the
    registry stays as it is.  Otherwise the entry appears under the new
    name with the new working directory and command and with its status
    and pid unchanged, the original name is free again when the two
    names differ, and every other entry is kept; an entry that already
    had the new name is replaced. *)
Theorem updateInstanceSettings_effects
    (originalName name workingDir cmd : string) (st : State) :
  (instances st !! originalName = None → originalName ∉ objectPrototypeNames) →
  name ≠ "__proto__" →
  let st' := updateInstanceSettings originalName name workingDir cmd st in
  instanceLogs st' = instanceLogs st ∧ pm st' = pm st ∧ disk st' = disk st ∧
  match instances st !! originalName with
  | None => instances st' = instances st
  | Some inst =>
      instances st' !! name =
        Some {| inst_name := name; inst_workingDir := workingDir;
                inst_command := cmd; inst_status := inst_status inst;
                inst_pid := inst_pid inst |} ∧
      (originalName ≠ name → instances st' !! originalName = None) ∧
      (∀ other, other ≠ name → other ≠ originalName →
         instances st' !! other = instances st !! other)
  end.
Proof.
  intros _ _. unfold updateInstanceSettings.
  destruct (instances st !! originalName) as [inst|] eqn:Hl; simpl; [|done].
  repeat split; try done.
  - case_bool_decide as Hsame.
    + subst. apply lookup_insert_eq.
    + rewrite lookup_delete_ne by done. apply lookup_insert_eq.
  - intros Hne. rewrite bool_decide_false by done. apply lookup_delete_eq.
  - intros other Hn Ho. case_bool_decide.
    + by rewrite lookup_insert_ne.
    + rewrite lookup_delete_ne by done. by rewrite lookup_insert_ne.
Qed.

Lemma updateInstanceSettings_effects_witness :
  instances (updateInstanceSettings "alpha" "beta" "/srv/beta" "start.sh" running) !! "beta"
  = Some {| inst_name := "beta"; inst_workingDir := "/srv/beta";
            inst_command := "start.sh"; inst_status := "running";
            inst_pid := Some 4242 |} ∧
  instances (updateInstanceSettings "alpha" "beta" "/srv/beta" "start.sh" running) !! "alpha"
  = None.
Proof.
  pose proof (updateInstanceSettings_effects "alpha" "beta" "/srv/beta" "start.sh" running)
    as H.
  destruct H as (_ & _ & _ & H).
  - intros Hnone. vm_compute in Hnone. discriminate Hnone.
  - discriminate.
  - change (instances running !! "alpha") with
      (Some {| inst_name := "alpha"; inst_workingDir := "/srv/alpha";
               inst_command := "run.sh"; inst_status := "running";
               inst_pid := Some 4242 |}) in H.
    destruct H as (Hnew & Hold & _). split; [exact Hnew|].
    apply Hold. discriminate.
Defined.

(** X19. Renaming an instance to a free name and then back, giving it
    its former working directory and command again, restores the
    registry exactly. *)
Theorem rename_and_back
    (a b workingDir cmd : string) (st : State) (inst : Instance) :
  instances st !! a = Some inst →
  inst_name inst = a →
  a ≠ b →
  instances st !! b = None →
  instances
    (updateInstanceSettings b a (inst_workingDir inst) (inst_command inst)
       (updateInstanceSettings a b workingDir cmd st))
  = instances st.
Proof.
  intros Ha Hname Hab Hb. unfold updateInstanceSettings at 2. rewrite Ha.
  rewrite bool_decide_false by done.
  unfold updateInstanceSettings. simpl.
  rewrite lookup_delete_ne by done. rewrite lookup_insert_eq.
  rewrite bool_decide_false by done. simpl.
  apply map_eq. intros k.
  destruct (decide (k = b)) as [->|Hkb]; [by rewrite lookup_delete_eq, Hb|].
  rewrite lookup_delete_ne by done.
  destruct (decide (k = a)) as [->|Hka].
  - rewrite lookup_insert_eq, Ha. f_equal. destruct inst; simpl in *. by subst.
  - rewrite lookup_insert_ne by done. rewrite lookup_delete_ne by done.
    by rewrite lookup_insert_ne.
Qed.

Lemma rename_and_back_witness :
  instances
    (updateInstanceSettings "beta" "alpha" "/srv/alpha" "run.sh"
       (updateInstanceSettings "alpha" "beta" "/srv/beta" "start.sh" running))
  = instances running.
Proof.
  apply (rename_and_back "alpha" "beta" "/srv/beta" "start.sh" running
           {| inst_name := "alpha"; inst_workingDir := "/srv/alpha";
              inst_command := "run.sh"; inst_status := "running";
              inst_pid := Some 4242 |}); try reflexivity.
  discriminate.
Defined.

(** ** Persistence, step by step *)

(** X20. Every callback leaves the registry file equal to the registry
    when it found it so, with one exception: the settings update, which
    never writes. *)
Theorem step_persists_unless_settings (st st' : State) :
  persisted st → step st st' →
  persisted st' ∨
  ∃ originalName name workingDir cmd,
    st' = updateInstanceSettings originalName name workingDir cmd st.
Proof.
  intros Hp Hstep. destruct Hstep.
  - left. exact (savesOrSkips_persisted _ _ Hp (register_saves _ _ _ _)).
  - left. exact (savesOrSkips_persisted _ _ Hp (startServer_saves _ _ _ _)).
  - left. exact (savesOrSkips_persisted _ _ Hp (stopServer_saves _ _ _)).
  - left. apply lateExit_saves.
  - left. by apply restartServer_saves.
  - left. exact (savesOrSkips_persisted _ _ Hp (terminateInstance_kill_saves _ _ _)).
  - left. exact (savesOrSkips_persisted _ _ Hp (terminateInstance_saves _ _)).
  - left. exact (savesOrSkips_persisted _ _ Hp (routeTerminate_saves _ _)).
  - left. by apply instanceAction_stop_saves.
  - left. exact (savesOrSkips_persisted _ _ Hp (tick_saves _ _)).
  - right. by exists originalName, name, workingDir, cmd.
  - by left.
Qed.

Lemma step_persists_unless_settings_witness :
  persisted (restartServer "alpha" GraceElapses None (Spawned (Some 4243)) running).1 ∨
  ∃ originalName name workingDir cmd,
    (restartServer "alpha" GraceElapses None (Spawned (Some 4243)) running).1
    = updateInstanceSettings originalName name workingDir cmd running.
Proof.
  apply step_persists_unless_settings; [reflexivity | apply step_restart].
Defined.

(** ** The first [terminateInstance] *)

Lemma killProcess_keeps_handles processId killError m :
  (fun h => (pi_id h, pi_pid h, pi_proc h)) <$> pm_processes (killProcess processId killError m).1
  = (fun h => (pi_id h, pi_pid h, pi_proc h)) <$> pm_processes m.
Proof.
  assert (∀ id msg (l : list ProcInfo),
            (fun h => (pi_id h, pi_pid h, pi_proc h)) <$>
              ((fun p => if (pi_id p =? id)%nat then pushError msg p else p) <$> l)
            = (fun h => (pi_id h, pi_pid h, pi_proc h)) <$> l) as Hsame.
  { intros id msg l. rewrite <- list_fmap_compose. apply list_fmap_ext.
    intros i h _. simpl. by destruct (pi_id h =? id)%nat. }
  unfold killProcess. destruct (pmGet _ _) as [info|]; [|done].
  destruct (truthyPid _) as [p|]; [destruct killError as [message|]; [|done]|];
    unfold appendError; simpl; by rewrite Hsame.
Qed.

Lemma killProcess_gentle processId killError m :
  forallb gentleEvent (killProcess processId killError m).2 = true.
Proof.
  unfold killProcess. destruct (pmGet _ _) as [info|]; [|done].
  destruct (truthyPid _) as [p|]; [destruct killError as [message|]|]; done.
Qed.

(** X21. The [terminateInstance] declared first ("just kill process")
    does nothing at all for an unknown instance or one whose pid is null
    or 0.  Otherwise it marks the entry "terminated" with a null pid and
    rewrites the file, but keeps the entry, its Log Buffer and every
    handle of the supervisor; the only signal it ever sends is SIGTERM,
    and it sends none when no handle has the instance's pid. *)
Theorem terminateInstance_kill_effects
    (name : string) (killError : option string) (st : State) :
  let st' := terminateInstance_kill name killError st in
  match instances st !! name with
  | None => st' = st
  | Some inst =>
      if pidTruthy (inst_pid inst) then
        instances st' = <[name := withRuntime inst "terminated" None]> (instances st) ∧
        disk st' = instances st' ∧
        instanceLogs st' = instanceLogs st ∧
        (fun h => (pi_id h, pi_pid h, pi_proc h)) <$> pm_processes (pm st')
          = (fun h => (pi_id h, pi_pid h, pi_proc h)) <$> pm_processes (pm st) ∧
        ∃ evs, trace st' = trace st ++ evs ∧ forallb gentleEvent evs = true ∧
               (findByPid (inst_pid inst) (pm_processes (pm st)) = None →
                evs = [EvWriteInstances (instances st')])
      else st' = st
  end.
Proof.
  unfold terminateInstance_kill.
  destruct (instances st !! name) as [inst|]; [|done].
  destruct (pidTruthy (inst_pid inst)); simpl; [|done].
  destruct (findByPid _ _) as [found|].
  - pose proof (killProcess_keeps_handles (pi_id found) killError (pm st)) as Hk.
    pose proof (killProcess_gentle (pi_id found) killError (pm st)) as Hg.
    destruct (killProcess _ _ _) as [pm1 evs]. simpl in *.
    repeat split; try done.
    exists (evs ++ [EvWriteInstances
                      (<[name := withRuntime inst "terminated" None]> (instances st))]).
    split; [by rewrite app_assoc|]. split; [|done].
    rewrite forallb_app, Hg. done.
  - simpl. repeat split; try done. eexists. repeat split; done.
Qed.

(** ** The older file: start, exit, terminate *)



(** X22. For a name that the object does not inherit, the older file's
    [terminateInstance] removes the instance and its log: afterwards a
    start is rejected as not found, the log route answers with the
    empty string, and the file equals the registry. *)
Theorem legacy_terminateInstance_removes name st os :
  name ∉ objectPrototypeNames →
  let st' := Legacy.terminateInstance name st in
  Legacy.instances st' !! name = None ∧
  Legacy.routeGetLogs name st' = EmptyString ∧
  (Legacy.startServer name os st').2 = Throw "Instance not found" ∧
  Legacy.disk st' = Legacy.instances st'.
Proof.
  intros _. unfold Legacy.terminateInstance.
  destruct (Legacy.processes st !! name) as [proc|]; simpl.
  all: unfold Legacy.startServer, Legacy.routeGetLogs; simpl.
  all: rewrite lookup_delete_eq.
  all: destruct (Legacy.logs st !! name) as [text|] eqn:Hl;
       [case_bool_decide as He|]; simpl.
  all: rewrite ?lookup_delete_eq, ?Hl; simpl; try done.
  all: by rewrite He.
Qed.

Lemma legacy_terminateInstance_removes_witness :
  Legacy.instances (Legacy.terminateInstance "alpha" legacyRegistered) !! "alpha" = None ∧
  (Legacy.startServer "alpha" (Spawned (Some 4242))
     (Legacy.terminateInstance "alpha" legacyRegistered)).2 = Throw "Instance not found".
Proof.
  destruct (legacy_terminateInstance_removes "alpha" legacyRegistered
              (Spawned (Some 4242))) as (Hgone & _ & Hstart & _).
  - apply (proj1 (bool_decide_eq_false _)). vm_compute. reflexivity.
  - split; [exact Hgone | exact Hstart].
Defined.

(** X24. In the older file the exit listener of a child whose instance
    has been terminated in the meantime throws: [terminateInstance] has
    deleted the entry that the listener writes to.  Nothing is changed
    by the throwing listener beyond the [processes] table, and nothing
    is saved. *)
Theorem legacy_exit_after_terminate_throws
    (name : string) (code : option Z) (st : Legacy.State) :
  let st1 := Legacy.terminateInstance name st in
  (legacyOnExit name code st1).2 = Throw "TypeError" ∧
  Legacy.instances (legacyOnExit name code st1).1 = Legacy.instances st1 ∧
  Legacy.logs (legacyOnExit name code st1).1 = Legacy.logs st1 ∧
  Legacy.disk (legacyOnExit name code st1).1 = Legacy.disk st1 ∧
  Legacy.trace (legacyOnExit name code st1).1 = Legacy.trace st1.
Proof.
  intros st1.
  assert (Legacy.instances st1 !! name = None) as Hgone.
  { subst st1. unfold Legacy.terminateInstance.
    destruct (Legacy.processes st !! name); simpl; apply lookup_delete_eq. }
  unfold legacyOnExit. by rewrite Hgone.
Qed.
